(** * Eventify: pattern matcher, listener registry and dispatch

    A shallow embedding of the Go package [eventify]:
    - [Matcher] / [NewMatcher] / [Match]   (matcher source),
    - [Register] / [Unregister]            (registry part of the emitter),
    - [Emit] / [EmitBy] / [_Emit] / [_Trigger] / [_MatchedListeners] /
      [_AnyToBytes]                        (dispatch part of the emitter).

    Go strings are byte sequences; they are modelled by [string], whose
    characters are 8-bit [ascii] values.  Go [int] values that hold lengths
    and indices are modelled by [Z].  A run-time panic (index or slice out of
    range) is modelled by [None] in the [option] type. *)

From Stdlib Require Import ZArith Lia Bool Ascii.
From stdpp Require Import base option list strings gmap fin_maps.

Local Open Scope Z_scope.

(** ** Go string primitives *)

Module GoString.

(** [len(s)] *)
Definition len (s : string) : Z := Z.of_nat (String.length s).

Fixpoint take (n : nat) (s : string) : string :=
  match n, s with
  | S n', String c s' => String c (take n' s')
  | _, _ => EmptyString
  end.

Fixpoint drop (n : nat) (s : string) : string :=
  match n, s with
  | S n', String _ s' => drop n' s'
  | _, _ => s
  end.

(** [s[i]]: panics unless [0 <= i < len(s)]. *)
Definition at_ (s : string) (i : Z) : option ascii :=
  if (0 <=? i) && (i <? len s) then String.get (Z.to_nat i) s else None.

(** [s[lo:hi]]: panics unless [0 <= lo <= hi <= len(s)]. *)
Definition slice (s : string) (lo hi : Z) : option string :=
  if (0 <=? lo) && (lo <=? hi) && (hi <=? len s)
  then Some (take (Z.to_nat (hi - lo)) (drop (Z.to_nat lo) s))
  else None.

(** [s1 == s2] on strings and on bytes. *)
Definition eqs (s1 s2 : string) : bool := bool_decide (s1 = s2).
Definition eqc (c1 c2 : ascii) : bool := bool_decide (c1 = c2).

(** [strings.HasPrefix(s, p)] *)
Fixpoint HasPrefix (s p : string) {struct p} : bool :=
  match p, s with
  | EmptyString, _ => true
  | String a p', String b s' => eqc a b && HasPrefix s' p'
  | String _ _, EmptyString => false
  end.

(** [strings.Contains(s, substr)]: [substr] occurs at some offset of [s]. *)
Fixpoint Contains (s substr : string) : bool :=
  HasPrefix s substr ||
  match s with
  | EmptyString => false
  | String _ s' => Contains s' substr
  end.

(** Relational readings used in the statements. *)
Definition starts_with (name p : string) : Prop :=
  exists rest, name = p +:+ rest.
Definition ends_with (name p : string) : Prop :=
  exists front, name = front +:+ p.
Definition contains (name p : string) : Prop :=
  exists front rest, name = front +:+ p +:+ rest.

End GoString.

Import GoString.

(** ** The matcher *)

(** A short-circuit conjunction whose right operand may panic. *)
Definition and_then (b : bool) (k : option bool) : option bool :=
  if b then k else Some false.

Notation "'do' x <- m ; k" := (match m with Some x => k | None => None end)
  (at level 10, x name, m at level 100, k at level 200, only parsing).

Record Matcher := mkMatcher {
  pattern : string;   (* the pattern without wildcards *)
  matchType : Z
}.

Definition matchExact : Z := 0.
Definition matchPrefix : Z := 1.
Definition matchSuffix : Z := 2.
Definition matchContains : Z := 3.
Definition matchWildcard : Z := 4.

Definition star : ascii := "*"%char.

(** [NewMatcher]: the [switch] is evaluated top to bottom; evaluating a case
    condition can panic, which aborts the call. *)
Definition NewMatcher (s : string) : option Matcher :=
  if eqs s "*" then
    Some (mkMatcher "" matchWildcard)
  else
    do c2 <- and_then (1 <? len s)
               (do a <- at_ s 0 ;
                and_then (eqc a star)
                  (do b <- at_ s (len s - 1) ; Some (eqc b star))) ;
    if c2 then
      do p <- slice s 1 (len s - 1) ;
      Some (mkMatcher p matchContains)
    else
      do c3 <- (do a <- at_ s 0 ; Some (eqc a star)) ;
      if c3 then
        do p <- slice s 1 (len s) ;
        Some (mkMatcher p matchSuffix)
      else
        do c4 <- and_then (0 <? len s)
                   (do b <- at_ s (len s - 1) ; Some (eqc b star)) ;
        if c4 then
          do p <- slice s 0 (len s - 1) ;
          Some (mkMatcher p matchPrefix)
        else
          Some (mkMatcher s matchExact).

(** [Matcher.Match] *)
Definition Match (m : Matcher) (target : string) : option bool :=
  if matchType m =? matchWildcard then Some true
  else if matchType m =? matchPrefix then
    and_then (len (pattern m) <=? len target)
      (do t <- slice target 0 (len (pattern m)) ; Some (eqs t (pattern m)))
  else if matchType m =? matchSuffix then
    and_then (len (pattern m) <=? len target)
      (do t <- slice target (len target - len (pattern m)) (len target) ;
       Some (eqs t (pattern m)))
  else if matchType m =? matchContains then
    Some (Contains target (pattern m))
  else
    Some (eqs target (pattern m)).

(** Compile a pattern and evaluate it on a name, as the dispatcher does. *)
Definition matches (p name : string) : option bool :=
  do m <- NewMatcher p ; Match m name.

(** ** Events, listeners and payloads *)

(** An [Event] value: [Type()] and [Payload()], and whether its dynamic type
    also implements [IsAsync] and [ErrorHandler].  A byte slice is
    [option string]: [None] is the nil slice. *)
Record Event := mkEvent {
  Type_ : string;
  Payload : option string;
  isAsyncEvent : bool;
  hasErrorHandler : bool
}.

(** [NewEvent]: the package's own event type has neither capability. *)
Definition NewEvent (eventType : string) (payload : option string) : Event :=
  mkEvent eventType payload false false.

(** A [Listener] value.  [lid] identifies the handler it wraps; [Name] is
    [Some n] exactly when the dynamic type implements [Namable]. *)
Record Listener := mkListener {
  lid : nat;
  Name : option string;
  isAsyncListener : bool
}.

Global Instance Listener_eq_dec : EqDecision Listener.
Proof. solve_decision. Defined.

Global Instance Event_eq_dec : EqDecision Event.
Proof. solve_decision. Defined.

Definition NewListener (handle : nat) : Listener :=
  mkListener handle None false.

Definition NewNamedListener (name : string) (handle : nat) : Listener :=
  mkListener handle (Some name) false.

(** Values other than strings and byte slices: the nil interface value, a
    value that implements [Event], or any other value.  [enc] is what
    [json.Marshal] returns for the value ([None] when it returns an error). *)
Inductive Value :=
| VNil
| VEvent (e : Event) (enc : option string)
| VOther (enc : option string).

(** [json.Marshal] of package encoding/json, on these values: the nil
    interface value is encoded as the JSON literal null. *)
Definition json_Marshal (v : Value) : option string :=
  match v with
  | VNil => Some "null"
  | VEvent _ enc => enc
  | VOther enc => enc
  end.

(** The dynamic contents of a payload of static type [any]. *)
Inductive any :=
| AnyString (s : string)
| AnyBytes (b : option string)
| AnyValue (v : Value).

(** The type assertion [payload.(Event)]. *)
Definition asEvent (payload : any) : option Event :=
  match payload with
  | AnyValue (VEvent e _) => Some e
  | _ => None
  end.

(** ** The emitter *)

(** How a call into the program's code ends: it returns [r] or it panics,
    and either way it leaves a listeners table [t] and a program state
    [w]. *)
Inductive Outcome (W R : Type) :=
| Returns (r : R) (t : gmap string (list Listener)) (w : W)
| Panics (t : gmap string (list Listener)) (w : W).

Arguments Returns {W R} r t w.
Arguments Panics {W R} t w.

Definition table_of {W R} (o : Outcome W R) : gmap string (list Listener) :=
  match o with
  | Returns _ t _ => t
  | Panics t _ => t
  end.

(** What a [Listener]'s [Handle] method and an event's [ErrorHandler] method
    do is supplied by the program that uses the package.  A handler is a
    closure of the program: it acts on the program's own state [W], and since
    it can hold the emitter and call [Register] or [Unregister] on it, it
    acts on the listeners table too.  [Handle l ev t w] returns [Some err] for
    a non-nil error; it panics when the handler panics, and when [l] is a nil
    [Listener] (the call of a method of a nil interface value).
    [ErrorHandler recv ev err] is the method of the event [recv]. *)
Class Handlers (W Err : Type) := {
  Handle : Listener -> Event -> gmap string (list Listener) -> W ->
           Outcome W (option Err);
  ErrorHandler : Event -> Event -> Err -> gmap string (list Listener) -> W ->
                 Outcome W unit
}.

(** Observable steps of the emitter, recorded in order. *)
Inductive Call (Err : Type) :=
| Handled (l : Listener) (ev : Event) (r : option Err)
    (* [listener.Handle(event)] ran inline and returned [r] *)
| ErrorHandled (ev : Event) (err : Err)
    (* [errHandler.ErrorHandler(event, err)] ran inline *)
| Spawned (l : Listener) (ev : Event)
    (* [go func() { ... }()] was launched for this delivery *)
| Debug (msg : string).
    (* [e.log.Debug(msg, ...)] *)

Arguments Handled {Err} l ev r.
Arguments ErrorHandled {Err} ev err.
Arguments Spawned {Err} l ev.
Arguments Debug {Err} msg.

(** The [Eventify] value ([listeners], a [sync.Map] from pattern to
    [[]Listener]) together with the program state the handlers act on and the
    record of calls.  The mutex is not represented: calls are run one at a
    time.  The logger [e.log] is not represented either: it is taken to be a
    working logger (the default [&NoLog{}] or a logger of the program), whose
    [Debug] returns; an emitter built with a nil logger panics at each
    [e.log.Debug] call. *)
Record State (W Err : Type) := mkState {
  listeners : gmap string (list Listener);
  world : W;
  trace : list (Call Err)
}.

Arguments mkState {W Err} listeners world trace.
Arguments listeners {W Err} s.
Arguments world {W Err} s.
Arguments trace {W Err} s.

(** Result of running a method: it returns, or it panics. *)
Inductive Result (W Err A : Type) :=
| Ok (a : A) (st : State W Err)
| Panic (st : State W Err).

Arguments Ok {W Err A} a st.
Arguments Panic {W Err A} st.

Definition final {W Err A} (r : Result W Err A) : State W Err :=
  match r with Ok _ st => st | Panic st => st end.

Definition M (W Err A : Type) : Type := State W Err -> Result W Err A.

Section Emitter.

Context {W Err : Type} `{HH : Handlers W Err}.

Local Abbreviation M := (M W Err).
Local Abbreviation State := (State W Err).

Definition ret {A} (a : A) : M A := fun st => Ok a st.

Definition bind {A B} (m : M A) (k : A -> M B) : M B :=
  fun st => match m st with
            | Ok a st' => k a st'
            | Panic st' => Panic st'
            end.

Local Notation "'let*' x := m 'in' k" := (bind m (fun x => k))
  (at level 10, x name, m at level 100, k at level 200, only parsing).
Local Notation "m ;; k" := (bind m (fun _ => k))
  (at level 100, k at level 200, right associativity, only parsing).

Fixpoint for_each {A} (xs : list A) (body : A -> M unit) : M unit :=
  match xs with
  | [] => ret tt
  | x :: xs' => body x ;; for_each xs' body
  end.

(** *** [sync.Map] operations on [e.listeners] *)

Definition LoadOrStore (key : string) (value : list Listener)
  : M (list Listener) :=
  fun st => match listeners st !! key with
            | Some actual => Ok actual st
            | None => Ok value (mkState (<[key := value]> (listeners st))
                                        (world st) (trace st))
            end.

Definition Store (key : string) (value : list Listener) : M unit :=
  fun st => Ok tt (mkState (<[key := value]> (listeners st))
                           (world st) (trace st)).

Definition Load (key : string) : M (option (list Listener)) :=
  fun st => Ok (listeners st !! key) st.

Definition Delete (key : string) : M unit :=
  fun st => Ok tt (mkState (delete key (listeners st)) (world st) (trace st)).

Definition log_Debug (msg : string) : M unit :=
  fun st => Ok tt (mkState (listeners st) (world st) (trace st ++ [Debug msg])).

(** *** Registry *)

Definition Register (eventType : string) (listener : Listener) : M unit :=
  let* ls := LoadOrStore eventType [] in
  Store eventType (ls ++ [listener]) ;;
  log_Debug "eventify register".

(** A [Namable] view of a listener: its name and the listener itself. *)
Definition Namable : Type := string * Listener.

(** [for _, listener := range listeners { if namable, ok := ... }] *)
Definition namedOf (given : list Listener) : list Namable :=
  foldl (fun acc listener =>
           match Name listener with
           | Some n => acc ++ [(n, listener)]
           | None => acc
           end) [] given.

(** The loop that splits the registered list into [lsCopy] and [newLs]. *)
Definition splitNamed (ls : list Listener) : list Namable * list Listener :=
  foldl (fun '(lsCopy, newLs) listener =>
           match Name listener with
           | Some n => (lsCopy ++ [(n, listener)], newLs)
           | None => (lsCopy, newLs ++ [listener])
           end) ([], []) ls.

(** The nested loop that rebuilds [newLs]. *)
Definition keepLoop (lsCopy namedListeners : list Namable)
    (newLs : list Listener) : list Listener :=
  foldl (fun acc (listener : Namable) =>
           foldl (fun acc' (l : Namable) =>
                    if negb (eqs (fst listener) (fst l))
                    then acc' ++ [snd listener] else acc')
                 acc namedListeners)
        newLs lsCopy.

Definition Unregister (eventType : string) (given : list Listener) : M unit :=
  if bool_decide (length given = 0%nat) then
    Delete eventType
  else
    log_Debug "eventify unregister" ;;
    let namedListeners := namedOf given in
    if bool_decide (length namedListeners = 0%nat) then ret tt
    else
      let* r := Load eventType in
      match r with
      | None => ret tt
      | Some ls =>
          let '(lsCopy, newLs) := splitNamed ls in
          if bool_decide (length lsCopy = 0%nat) then ret tt
          else Store eventType (keepLoop lsCopy namedListeners newLs)
      end.

(** *** Dispatch *)

(** The body of [e.listeners.Range] in [_MatchedListeners], over the
    entries in the order the map enumerates them. *)
Fixpoint collect (entries : list (string * list Listener))
    (eventType : string) (acc : list Listener) : option (list Listener) :=
  match entries with
  | [] => Some acc
  | (key, value) :: rest =>
      do m <- NewMatcher key ;
      do b <- Match m eventType ;
      collect rest eventType (if b then acc ++ value else acc)
  end.

Definition _MatchedListeners (eventType : string) : M (list Listener) :=
  fun st => match collect (map_to_list (listeners st)) eventType [] with
            | Some ls => Ok ls st
            | None => Panic st
            end.

(** [listener.Handle(event)], run inline: a panic of the call ends the
    method that made it. *)
Definition call_Handle (listener : Listener) (event : Event)
  : M (option Err) :=
  fun st => match Handle listener event (listeners st) (world st) with
            | Returns r t w =>
                Ok r (mkState t w (trace st ++ [Handled listener event r]))
            | Panics t w => Panic (mkState t w (trace st))
            end.

(** [errHandler.ErrorHandler(event, err)], run inline. *)
Definition call_ErrorHandler (event : Event) (err : Err) : M unit :=
  fun st => match ErrorHandler event event err (listeners st) (world st) with
            | Returns _ t w =>
                Ok tt (mkState t w (trace st ++ [ErrorHandled event err]))
            | Panics t w => Panic (mkState t w (trace st))
            end.

(** [go func() { ... }()]: the task is launched; when it runs, and what the
    handler does then, is outside the call that launched it and is not
    represented. *)
Definition go_deliver (listener : Listener) (event : Event) : M unit :=
  fun st => Ok tt (mkState (listeners st) (world st)
                           (trace st ++ [Spawned listener event])).

Definition _Trigger (event : Event) (listener : Listener) (async : bool)
  : M unit :=
  if async then go_deliver listener event
  else
    let* err := call_Handle listener event in
    match err with
    | Some e => if hasErrorHandler event then call_ErrorHandler event e
                else ret tt
    | None => ret tt
    end.

Definition _Emit (event : Event) : M unit :=
  let* ls := _MatchedListeners (Type_ event) in
  for_each ls (fun listener =>
    _Trigger event listener (isAsyncEvent event || isAsyncListener listener)) ;;
  log_Debug "eventify emited".

Definition Emit (event : Event) : M unit := _Emit event.

Definition _AnyToBytes (payload : any) : option string :=
  match payload with
  | AnyValue VNil => None
  | AnyString p => Some p
  | AnyBytes p => p
  | AnyValue v =>
      match json_Marshal v with
      | None => None
      | Some bz => Some bz
      end
  end.

Definition EmitBy (eventType : string) (payload : any) : M unit :=
  match asEvent payload with
  | Some event => _Emit event
  | None => _Emit (NewEvent eventType (_AnyToBytes payload))
  end.

End Emitter.

(** *** Reading the record of calls *)

Section Traces.

Context {Err : Type}.

(** Listeners to which a delivery was made, inline or by a launched task. *)
Definition delivered (tr : list (Call Err)) : list Listener :=
  omap (fun c => match c with
                 | Handled l _ _ => Some l
                 | Spawned l _ => Some l
                 | _ => None
                 end) tr.

(** Listeners whose [Handle] ran inline. *)
Definition invoked (tr : list (Call Err)) : list Listener :=
  omap (fun c => match c with Handled l _ _ => Some l | _ => None end) tr.

(** The inline [Handle] calls that returned an error: event and error. *)
Definition failures (tr : list (Call Err)) : list (Event * Err) :=
  omap (fun c => match c with
                 | Handled _ ev (Some e) => Some (ev, e)
                 | _ => None
                 end) tr.

(** The inline [ErrorHandler] calls: event and error passed. *)
Definition callbacks (tr : list (Call Err)) : list (Event * Err) :=
  omap (fun c => match c with ErrorHandled ev e => Some (ev, e) | _ => None end) tr.

(** Every inline [Handle] call that returned an error is immediately followed
    by the [ErrorHandler] call for the same event and error, and there is no
    other [ErrorHandler] call. *)
Inductive routed : list (Call Err) -> Prop :=
| routed_nil : routed []
| routed_failure l ev e tr :
    routed tr -> routed (Handled l ev (Some e) :: ErrorHandled ev e :: tr)
| routed_success l ev tr : routed tr -> routed (Handled l ev None :: tr)
| routed_spawned l ev tr : routed tr -> routed (Spawned l ev :: tr)
| routed_debug msg tr : routed tr -> routed (Debug msg :: tr).

(** What a synchronous publish to the listeners [ls] adds to the record of
    calls: one inline handler call per listener, in order, and the callbacks
    for the failures. *)
Record sync_record (ev : Event) (ls : list Listener) (tr : list (Call Err)) : Prop := {
  sr_delivered : delivered tr = ls;
  sr_invoked : invoked tr = ls;
  sr_callbacks : callbacks tr = if hasErrorHandler ev then failures tr else [];
  sr_failures : Forall (fun c : Event * Err => c.1 = ev) (failures tr);
  sr_routed : hasErrorHandler ev = true -> routed tr
}.

(** What [n] calls of [Register] add to the record of calls. *)
Definition register_log (n : nat) : list (Call Err) :=
  replicate n (Debug "eventify register").

End Traces.

(** *** Reading the loops of [Unregister] *)

(** The two branches of the type assertion [listener.(Namable)]. *)
Definition asNamable (l : Listener) : option Namable :=
  match Name l with Some n => Some (n, l) | None => None end.

Definition asUnnamed (l : Listener) : option Listener :=
  match Name l with Some _ => None | None => Some l end.

(** What the inner loop appends for one registered listener: one copy for
    every given identity that differs from its own. *)
Definition copiesOf (named : list Namable) (x : Namable) : list Listener :=
  flat_map (fun l : Namable => if negb (eqs x.1 l.1) then [x.2] else []) named.

(** The entries of the table that a name selects, as [_MatchedListeners]
    reads them. *)
Definition selected (name : string) (kv : string * list Listener)
  : list Listener :=
  match matches kv.1 name with
  | Some true => kv.2
  | _ => []
  end.

(** The payload conversion as the specification words it: a text payload
    gives its bytes, a byte payload is passed unchanged, any other payload is
    serialized, and a failed serialization gives the nil payload. *)
Definition bytes_as_specified (payload : any) : option string :=
  match payload with
  | AnyString p => Some p
  | AnyBytes p => p
  | AnyValue v =>
      match json_Marshal v with
      | Some bz => Some bz
      | None => None
      end
  end.

(** *** A synchronous publish as the specification words it

    For each collected listener in turn: invoke its handler inline; if it
    returns a failure and the event carries a failure callback, invoke the
    callback inline with the event and that failure before continuing with
    the next listener.  The result is [None] when one of these calls panics,
    and otherwise the table and program state left by the last call together
    with the calls made. *)
Section SyncPublish.

Context {W Err : Type} `{HH : Handlers W Err}.

Definition sync_delivery (ev : Event) (l : Listener)
    (t : gmap string (list Listener)) (w : W)
  : option (gmap string (list Listener) * W * list (Call Err)) :=
  match Handle l ev t w with
  | Panics _ _ => None
  | Returns None t1 w1 => Some (t1, w1, [Handled l ev None])
  | Returns (Some e) t1 w1 =>
      if hasErrorHandler ev then
        match ErrorHandler ev ev e t1 w1 with
        | Panics _ _ => None
        | Returns _ t2 w2 =>
            Some (t2, w2, [Handled l ev (Some e); ErrorHandled ev e])
        end
      else Some (t1, w1, [Handled l ev (Some e)])
  end.

Fixpoint sync_deliveries (ev : Event) (ls : list Listener)
    (t : gmap string (list Listener)) (w : W)
  : option (gmap string (list Listener) * W * list (Call Err)) :=
  match ls with
  | [] => Some (t, w, [])
  | l :: ls' =>
      match sync_delivery ev l t w with
      | None => None
      | Some (t1, w1, tr1) =>
          match sync_deliveries ev ls' t1 w1 with
          | None => None
          | Some (t2, w2, tr2) => Some (t2, w2, tr1 ++ tr2)
          end
      end
  end.

(** The handlers alone, each run once in turn whatever it returns. *)
Fixpoint handlers_only (ev : Event) (ls : list Listener)
    (t : gmap string (list Listener)) (w : W)
  : option (gmap string (list Listener) * W) :=
  match ls with
  | [] => Some (t, w)
  | l :: ls' =>
      match Handle l ev t w with
      | Panics _ _ => None
      | Returns _ t1 w1 => handlers_only ev ls' t1 w1
      end
  end.

(** The state a synchronous publish to [ls] is to end in: the table and
    program state left by the deliveries, and the record extended by the
    calls made and the log line. *)
Definition sync_publish (ev : Event) (ls : list Listener) (st : State W Err)
  : option (State W Err) :=
  match sync_deliveries ev ls (listeners st) (world st) with
  | Some (t, w, tr) =>
      Some (mkState t w (trace st ++ tr ++ [Debug "eventify emited"]))
  | None => None
  end.

End SyncPublish.

(** *** A sample program using the package

    The program state counts handler calls.  The listener with identity [0]
    is a nil [Listener]: calling its handler panics.  The handler with
    identity [7] fails with the error ["boom"].  The handler with identity
    [9] registers a new listener under ["late.event"] on the emitter that
    called it.  The failure callback adds [100]. *)
Definition sample_handlers : Handlers nat string := {|
  Handle l ev t w :=
    if Nat.eqb (lid l) 0 then Panics t w
    else if Nat.eqb (lid l) 9 then
      Returns None
        (listeners (final (Register (W := nat) (Err := string)
                             "late.event" (NewListener 1) (mkState t w []))))
        (S w)
    else Returns (if Nat.eqb (lid l) 7 then Some "boom" else None) t (S w);
  ErrorHandler recv ev err t w := Returns tt t (w + 100)%nat
|}.

(** The same program without the nil listener and without the handler that
    registers: no handler touches the table. *)
Definition counting_handlers : Handlers nat string := {|
  Handle l ev t w := Returns (if Nat.eqb (lid l) 7 then Some "boom" else None) t (S w);
  ErrorHandler recv ev err t w := Returns tt t (w + 100)%nat
|}.

Definition start {W Err : Type} (w : W) : State W Err := mkState ∅ w [].

(** ** Further parts of the package *)

(** [strings.HasSuffix(s, suffix)]:
    [len(s) >= len(suffix) && s[len(s)-len(suffix):] == suffix]. *)
Definition HasSuffix (s suffix : string) : bool :=
  (len suffix <=? len s) &&
  match slice s (len s - len suffix) (len s) with
  | Some t => eqs t suffix
  | None => false
  end.

(** The subscription string a matcher was compiled from, read back from its
    class and literal. *)
Definition render (m : Matcher) : string :=
  if matchType m =? matchWildcard then "*"
  else if matchType m =? matchContains then "*" +:+ pattern m +:+ "*"
  else if matchType m =? matchSuffix then "*" +:+ pattern m
  else if matchType m =? matchPrefix then pattern m +:+ "*"
  else pattern m.

(** *** The earlier matcher

    It keeps the subscription string as it is and classifies it at each call
    of [Match]. *)
Module Legacy.

Record Matcher := mkMatcher {
  s : string
}.

Definition NewMatcher (s : string) : Matcher := mkMatcher s.

Definition Match (m : Matcher) (target : string) : option bool :=
  if eqs (s m) "*" then Some true
  else if HasPrefix (s m) "*" then
    do suffix <- slice (s m) 1 (len (s m)) ;
    Some (HasSuffix target suffix)
  else if HasSuffix (s m) "*" then
    do prefix <- slice (s m) 0 (len (s m) - 1) ;
    Some (HasPrefix target prefix)
  else Some (eqs (s m) target).

Definition matches (p name : string) : option bool :=
  Match (NewMatcher p) name.

End Legacy.

(** *** Options *)
Module Options.

(** A value of the interface type [Log]: nil, the package's [&NoLog{}], or
    a logger of the program. *)
Inductive Log :=
| NilLog
| NoLog
| UserLog (id : nat).

Record Option := mkOption {
  log : Log
}.

(** An [OptionFunc] value: [None] is the nil function, [Some f] a function
    that updates the option it is given. *)
Definition OptionFunc : Type := option (Option -> Option).

Definition WithLogger (log : Log) : OptionFunc :=
  Some (fun _ => mkOption log).

(** [for _, opt := range opts { opt(o) }]; calling a nil function panics. *)
Fixpoint apply_all (opts : list OptionFunc) (o : Option) : option Option :=
  match opts with
  | [] => Some o
  | Some f :: rest => apply_all rest (f o)
  | None :: _ => None
  end.

Definition NewOption (opts : list OptionFunc) : option Option :=
  apply_all opts (mkOption NoLog).

End Options.

(** ** Evaluation of the matcher on the cases of the package's tests *)

Example matcher_prefix_1 : matches "test*" "test123" = Some true.
Proof. reflexivity. Qed.
Example matcher_prefix_2 : matches "test*" "atest" = Some false.
Proof. reflexivity. Qed.
Example matcher_suffix_1 : matches "*test" " test" = Some true.
Proof. reflexivity. Qed.
Example matcher_suffix_2 : matches "*test" "test1" = Some false.
Proof. reflexivity. Qed.
Example matcher_contains_1 : matches "*test*" "test123test" = Some true.
Proof. reflexivity. Qed.
Example matcher_contains_2 : matches "*test*" "1te st1" = Some false.
Proof. reflexivity. Qed.
Example matcher_wild : matches "*" "" = Some true.
Proof. reflexivity. Qed.
Example matcher_exact : matches "test" "test " = Some false.
Proof. reflexivity. Qed.
Example matcher_empty : matches "" "" = None.
Proof. reflexivity. Qed.

(** ** Facts about the string primitives *)

Section StringFacts.

Local Open Scope nat_scope.

Lemma app_cons (c : ascii) (s t : string) :
  String c s +:+ t = String c (s +:+ t).
Proof. reflexivity. Qed.

Lemma app_empty_l (t : string) : "" +:+ t = t.
Proof. reflexivity. Qed.

Lemma app_empty_r (s : string) : s +:+ "" = s.
Proof. induction s as [|c s IH]; [done|]. by rewrite app_cons, IH. Qed.

Lemma app_assoc_s (a b c : string) : (a +:+ b) +:+ c = a +:+ b +:+ c.
Proof. induction a as [|x a IH]; [done|]. by rewrite !app_cons, IH. Qed.

Lemma length_app_s (a b : string) :
  String.length (a +:+ b) = String.length a + String.length b.
Proof. induction a as [|x a IH]; [done|]. rewrite app_cons. simpl. by rewrite IH. Qed.

Lemma take_app_exact (a b : string) : take (String.length a) (a +:+ b) = a.
Proof.
  induction a as [|x a IH]; simpl.
  - by destruct b.
  - by rewrite ?app_cons, IH.
Qed.

Lemma drop_app_exact (a b : string) : drop (String.length a) (a +:+ b) = b.
Proof. induction a as [|x a IH]; simpl; [done|]. by rewrite ?app_cons. Qed.

Lemma take_drop_s (n : nat) (s : string) : take n s +:+ drop n s = s.
Proof.
  revert s; induction n as [|n IH]; intros [|c s]; simpl; try done.
  by rewrite app_cons, IH.
Qed.

Lemma length_take (n : nat) (s : string) :
  n <= String.length s -> String.length (take n s) = n.
Proof.
  revert s; induction n as [|n IH]; intros [|c s]; simpl; intros H; try lia.
  rewrite IH; lia.
Qed.

Lemma length_drop (n : nat) (s : string) :
  String.length (drop n s) = String.length s - n.
Proof. revert s; induction n as [|n IH]; intros [|c s]; simpl; auto. Qed.

Lemma take_all (s : string) : take (String.length s) s = s.
Proof. induction s as [|c s IH]; simpl; [done|]. by rewrite IH. Qed.

Lemma get_last (a : string) (c : ascii) :
  String.get (String.length a) (a +:+ String c "") = Some c.
Proof. induction a as [|x a IH]; simpl; [done|]. by rewrite ?app_cons. Qed.

Lemma eqs_true (s t : string) : eqs s t = true <-> s = t.
Proof. unfold eqs. apply bool_decide_eq_true. Qed.

Lemma eqs_refl (s : string) : eqs s s = true.
Proof. by apply eqs_true. Qed.

Lemma eqc_true (a b : ascii) : eqc a b = true <-> a = b.
Proof. unfold eqc. apply bool_decide_eq_true. Qed.

Lemma eqc_refl_star : eqc star star = true.
Proof. reflexivity. Qed.

Lemma eqc_false (a b : ascii) : eqc a b = false <-> a <> b.
Proof. unfold eqc. apply bool_decide_eq_false. Qed.

Lemma HasPrefix_spec (s p : string) :
  HasPrefix s p = true <-> starts_with s p.
Proof.
  unfold starts_with. revert s; induction p as [|a p IH]; intros s; simpl.
  - split; [intros _; by exists s | done].
  - destruct s as [|b s].
    + split; [done | intros [r Hr]; by rewrite app_cons in Hr].
    + rewrite andb_true_iff, eqc_true, IH. split.
      * intros [-> [r ->]]. by exists r.
      * intros [r Hr]. rewrite app_cons in Hr. injection Hr as -> ->. eauto.
Qed.

Lemma Contains_spec (s p : string) :
  Contains s p = true <-> contains s p.
Proof.
  unfold contains. induction s as [|c s IH]; simpl.
  - rewrite orb_false_r, HasPrefix_spec. split.
    + intros [r Hr]. by exists "", r.
    + intros [f [r Hr]]. destruct f; [by exists r|by rewrite app_cons in Hr].
  - rewrite orb_true_iff, IH.
    change (match p with "" => true | String a p' => eqc a c && HasPrefix s p' end)
      with (HasPrefix (String c s) p).
    rewrite HasPrefix_spec. split.
    + intros [[r Hr] | [f [r Hr]]].
      * by exists "", r.
      * exists (String c f), r. by rewrite app_cons, Hr.
    + intros [f [r Hr]]. destruct f as [|x f].
      * left. by exists r.
      * right. rewrite app_cons in Hr. injection Hr as -> ->. eauto.
Qed.

End StringFacts.

(** ** Indexing and slicing of concatenations *)

Section SliceFacts.

Lemma len_nonneg (s : string) : 0 <= len s.
Proof. unfold len. lia. Qed.

Lemma len_app (a b : string) : len (a +:+ b) = len a + len b.
Proof. unfold len. rewrite length_app_s. lia. Qed.

Lemma len_cons (c : ascii) (s : string) : len (String c s) = 1 + len s.
Proof. unfold len. simpl String.length. lia. Qed.

Lemma len_empty : len "" = 0.
Proof. reflexivity. Qed.

Lemma len_zero (s : string) : len s = 0 -> s = "".
Proof. destruct s; [done|]. rewrite len_cons. pose proof (len_nonneg s). lia. Qed.

Lemma at_first (c : ascii) (s : string) : at_ (String c s) 0 = Some c.
Proof.
  unfold at_. rewrite len_cons. pose proof (len_nonneg s).
  destruct (Z.ltb_spec 0 (1 + len s)); [done | lia].
Qed.

Lemma at_empty (i : Z) : at_ "" i = None.
Proof.
  unfold at_. rewrite len_empty.
  destruct (Z.leb_spec 0 i), (Z.ltb_spec i 0); simpl; try done; lia.
Qed.

Lemma at_last (a : string) (c : ascii) :
  at_ (a +:+ String c "") (len (a +:+ String c "") - 1) = Some c.
Proof.
  unfold at_. rewrite len_app, len_cons, len_empty.
  pose proof (len_nonneg a).
  replace (len a + (1 + 0) - 1) with (len a) by lia.
  destruct (Z.leb_spec 0 (len a)); [|lia].
  destruct (Z.ltb_spec (len a) (len a + (1 + 0))); [|lia].
  simpl. unfold len. rewrite Nat2Z.id. apply get_last.
Qed.

Lemma slice_app3 (a b c : string) :
  slice (a +:+ b +:+ c) (len a) (len a + len b) = Some b.
Proof.
  unfold slice. rewrite !len_app.
  pose proof (len_nonneg a). pose proof (len_nonneg b). pose proof (len_nonneg c).
  destruct (Z.leb_spec 0 (len a)); [|lia].
  destruct (Z.leb_spec (len a) (len a + len b)); [|lia].
  destruct (Z.leb_spec (len a + len b) (len a + (len b + len c))); [|lia].
  simpl. f_equal.
  replace (len a + len b - len a) with (len b) by lia.
  unfold len. rewrite !Nat2Z.id.
  by rewrite drop_app_exact, take_app_exact.
Qed.

Lemma slice_prefix (b c : string) : slice (b +:+ c) 0 (len b) = Some b.
Proof. apply (slice_app3 "" b c). Qed.

Lemma slice_suffix (a b : string) :
  slice (a +:+ b) (len a) (len (a +:+ b)) = Some b.
Proof.
  rewrite len_app. pose proof (slice_app3 a b "") as H.
  by rewrite app_empty_r in H.
Qed.

(** A slice that does not panic splits the string around it. *)
Lemma slice_Some (s t : string) (lo hi : Z) :
  slice s lo hi = Some t ->
  exists a c, s = a +:+ t +:+ c /\ len a = lo /\ len t = hi - lo.
Proof.
  unfold slice.
  destruct (Z.leb_spec 0 lo); [|done].
  destruct (Z.leb_spec lo hi); [|done].
  destruct (Z.leb_spec hi (len s)); [|done].
  simpl. intros [= <-].
  exists (take (Z.to_nat lo) s),
         (drop (Z.to_nat (hi - lo)) (drop (Z.to_nat lo) s)).
  rewrite !take_drop_s. split; [done|].
  unfold len in *. split; rewrite length_take; rewrite ?length_drop; lia.
Qed.

Lemma slice_total (s : string) (lo hi : Z) :
  0 <= lo -> lo <= hi -> hi <= len s -> is_Some (slice s lo hi).
Proof.
  intros. unfold slice.
  destruct (Z.leb_spec 0 lo); [|lia].
  destruct (Z.leb_spec lo hi); [|lia].
  destruct (Z.leb_spec hi (len s)); [|lia].
  simpl. eauto.
Qed.

End SliceFacts.

(** ** Classification performed by [NewMatcher] *)

Section MatcherFacts.

Lemma get_total (s : string) (n : nat) :
  (n < String.length s)%nat -> is_Some (String.get n s).
Proof.
  revert n; induction s as [|c s IH]; intros n; simpl; [lia|].
  destruct n as [|n]; [eauto|]. intros H. apply IH. lia.
Qed.

Lemma at_total (s : string) (i : Z) : 0 <= i < len s -> is_Some (at_ s i).
Proof.
  intros [H0 H1]. unfold at_.
  destruct (Z.leb_spec 0 i); [|lia]. destruct (Z.ltb_spec i (len s)); [|lia].
  simpl. apply get_total. unfold len in H1. lia.
Qed.

Lemma and_then_true (k : option bool) : and_then true k = k.
Proof. reflexivity. Qed.

Lemma NewMatcher_wildcard : NewMatcher "*" = Some (mkMatcher "" matchWildcard).
Proof. reflexivity. Qed.

Lemma NewMatcher_contains (lit : string) :
  NewMatcher ("*" +:+ lit +:+ "*") = Some (mkMatcher lit matchContains).
Proof.
  change ("*" +:+ lit +:+ "*") with (String star (lit +:+ "*")).
  unfold NewMatcher.
  assert (eqs (String star (lit +:+ "*")) "*" = false) as ->.
  { apply bool_decide_eq_false. intros [= H]. by destruct lit. }
  assert ((1 <? len (String star (lit +:+ "*"))) = true) as ->.
  { apply Z.ltb_lt. rewrite len_cons, len_app, len_cons, len_empty.
    pose proof (len_nonneg lit). lia. }
  rewrite at_first, eqc_refl_star.
  change (String star (lit +:+ "*")) with ((String star lit) +:+ (String star "")) at 1 2.
  rewrite at_last. rewrite eqc_refl_star. simpl and_then. cbv iota beta.
  change (String star (lit +:+ "*")) with ("*" +:+ lit +:+ "*").
  replace (len ("*" +:+ lit +:+ "*") - 1) with (len "*" + len lit).
  2:{ rewrite !len_app. change (len "*") with 1. lia. }
  change 1 with (len "*") at 1.
  by rewrite slice_app3.
Qed.

Lemma not_starts_with_star (c : ascii) (p : string) :
  ~ starts_with (String c p) "*" -> c <> star.
Proof. intros H ->. apply H. by exists p. Qed.

Lemma NewMatcher_prefix (p : string) :
  p <> "" -> ~ starts_with p "*" ->
  NewMatcher (p +:+ "*") = Some (mkMatcher p matchPrefix).
Proof.
  destruct p as [|c p]; [done|]. intros _ Hc%not_starts_with_star.
  change (String c p +:+ "*") with (String c (p +:+ "*")).
  unfold NewMatcher.
  assert (eqs (String c (p +:+ "*")) "*" = false) as ->.
  { apply bool_decide_eq_false. by intros [= H]. }
  rewrite at_first. apply eqc_false in Hc. rewrite Hc.
  assert (and_then (1 <? len (String c (p +:+ "*"))) (and_then false
            (do b <- at_ (String c (p +:+ "*")) (len (String c (p +:+ "*")) - 1);
             Some (eqc b star))) = Some false) as ->.
  { by destruct (1 <? _). }
  cbv iota beta.
  assert ((0 <? len (String c (p +:+ "*"))) = true) as ->.
  { apply Z.ltb_lt. rewrite len_cons. pose proof (len_nonneg (p +:+ "*")). lia. }
  change (String c (p +:+ "*")) with ((String c p) +:+ (String star "")).
  rewrite at_last, eqc_refl_star. simpl and_then. cbv iota beta.
  replace (len (String c p +:+ String star "") - 1) with (len (String c p)).
  2:{ rewrite len_app. change (len (String star "")) with 1. lia. }
  by rewrite slice_prefix.
Qed.

Lemma NewMatcher_total (s : string) : s <> "" -> is_Some (NewMatcher s).
Proof.
  intros Hs. destruct s as [|c s]; [done|]. unfold NewMatcher.
  destruct (eqs _ "*"); [eauto|].
  pose proof (len_nonneg s) as Hl.
  assert (is_Some (at_ (String c s) (len (String c s) - 1))) as [d Hd].
  { apply at_total. rewrite len_cons. lia. }
  rewrite at_first, Hd.
  destruct (Z.ltb_spec 1 (len (String c s))) as [H1|H1]; simpl and_then.
  - destruct (eqc c star); simpl and_then; cbv iota beta.
    + destruct (eqc d star).
      * destruct (slice_total (String c s) 1 (len (String c s) - 1))
          as [t ->]; [lia..|eauto].
      * destruct (slice_total (String c s) 1 (len (String c s)))
          as [t ->]; [lia..|eauto].
    + destruct (Z.ltb_spec 0 (len (String c s))); [|lia]. simpl and_then.
      destruct (eqc d star); [|eauto].
      destruct (slice_total (String c s) 0 (len (String c s) - 1))
        as [t ->]; [lia..|eauto].
  - cbv iota beta. destruct (eqc c star).
    + destruct (slice_total (String c s) 1 (len (String c s)))
        as [t ->]; [rewrite ?len_cons; lia..|eauto].
    + destruct (Z.ltb_spec 0 (len (String c s))); [|rewrite len_cons in *; lia].
      simpl and_then. destruct (eqc d star); [|eauto].
      destruct (slice_total (String c s) 0 (len (String c s) - 1))
        as [t ->]; [rewrite ?len_cons; lia..|eauto].
Qed.

(** [Match] never panics: the length test guards both slices. *)
Lemma Match_total (m : Matcher) (target : string) : is_Some (Match m target).
Proof.
  unfold Match. pose proof (len_nonneg (pattern m)).
  destruct (_ =? matchWildcard); [eauto|].
  destruct (_ =? matchPrefix).
  { destruct (Z.leb_spec (len (pattern m)) (len target)); simpl; [|eauto].
    destruct (slice_total target 0 (len (pattern m))) as [t ->]; [lia..|eauto]. }
  destruct (_ =? matchSuffix).
  { destruct (Z.leb_spec (len (pattern m)) (len target)); simpl; [|eauto].
    destruct (slice_total target (len target - len (pattern m)) (len target))
      as [t ->]; [lia..|eauto]. }
  destruct (_ =? matchContains); eauto.
Qed.

Lemma app_inj_length (a b c d : string) :
  a +:+ b = c +:+ d -> String.length a = String.length c -> a = c.
Proof.
  intros H L. rewrite <- (take_app_exact a b), <- (take_app_exact c d).
  by rewrite H, L.
Qed.

Lemma Match_prefix (p target : string) :
  exists b, Match (mkMatcher p matchPrefix) target = Some b /\
            (b = true <-> starts_with target p).
Proof.
  unfold Match. simpl.
  destruct (Z.leb_spec (len p) (len target)) as [H|H]; simpl and_then.
  - pose proof (len_nonneg p).
    destruct (slice_total target 0 (len p)) as [t Ht]; [lia..|].
    rewrite Ht. eexists; split; [done|].
    apply slice_Some in Ht as (a & c & -> & Ha & Hl).
    apply len_zero in Ha as ->. rewrite app_empty_l.
    rewrite eqs_true. split.
    + intros ->. by exists c.
    + intros [r Hr]. apply (app_inj_length _ _ _ _ Hr). unfold len in Hl. lia.
  - exists false. split; [done|]. split; [done|].
    intros [r ->]. rewrite len_app in H. pose proof (len_nonneg r). lia.
Qed.

End MatcherFacts.

(** ** Properties of the matcher *)

(** C2 (code behaviour at the empty pattern): the third case of the [switch]
    in [NewMatcher] reads [s[0]] without a length test, so compiling the empty
    pattern panics instead of yielding an exact matcher. *)
Theorem NewMatcher_empty_panics : NewMatcher "" = None.
Proof. reflexivity. Qed.

(** C4: a pattern made of a literal between two wildcard markers compiles,
    and the compiled matcher accepts exactly the names that contain the
    literal; in particular for the pattern ["*mid*"]. *)
Theorem contains_pattern_matches (lit name : string) :
  (exists b, matches ("*" +:+ lit +:+ "*") name = Some b /\
             (b = true <-> contains name lit)) /\
  (exists b, matches "*mid*" name = Some b /\
             (b = true <-> contains name "mid")).
Proof.
  assert (forall l, exists b, matches ("*" +:+ l +:+ "*") name = Some b /\
                              (b = true <-> contains name l)) as H.
  { intros l. unfold matches. rewrite NewMatcher_contains.
    exists (Contains name l). split; [done|]. apply Contains_spec. }
  split; [apply H | apply (H "mid")].
Qed.

(** C5 (as stated, for every prefix) fails when the prefix itself begins with
    the wildcard marker: ["*.log" + "*"] is classified as a containment
    pattern, so it accepts ["app.log.1"], which does not start with
    ["*.log"]. *)
Lemma prefix_rule_star_prefix_counterexample :
  matches ("*.log" +:+ "*") "app.log.1" = Some true /\
  ~ starts_with "app.log.1" "*.log".
Proof.
  split; [reflexivity|]. intros [r Hr]. discriminate Hr.
Qed.

(** C5 (amended): for every prefix that does not begin with the wildcard
    marker, the pattern [prefix + "*"] compiles and accepts exactly the names
    that start with [prefix]; names shorter than [prefix] are rejected. *)
Theorem prefix_pattern_matches (prefix name : string) :
  ~ starts_with prefix "*" ->
  exists b, matches (prefix +:+ "*") name = Some b /\
            (b = true <-> starts_with name prefix) /\
            (len name < len prefix -> b = false).
Proof.
  intros Hp. destruct (decide (prefix = "")) as [->|Hne].
  - exists true. split; [done|]. split; [|rewrite len_empty; pose proof (len_nonneg name); lia].
    split; [|done]. intros _. by exists name.
  - unfold matches. rewrite (NewMatcher_prefix _ Hne Hp).
    destruct (Match_prefix prefix name) as (b & Hb & Hiff).
    exists b. split; [done|]. split; [done|].
    intros Hlt. destruct b; [|done].
    destruct (proj1 Hiff eq_refl) as [r ->].
    rewrite len_app in Hlt. pose proof (len_nonneg r). lia.
Qed.

Lemma prefix_pattern_matches_witness :
  ~ starts_with "user." "*" /\
  exists b, matches ("user." +:+ "*") "user.created" = Some b /\
            (b = true <-> starts_with "user.created" "user.") /\
            (len "user.created" < len "user." -> b = false).
Proof.
  assert (~ starts_with "user." "*") as H.
  { intros [r Hr]. discriminate Hr. }
  split; [exact H | exact (prefix_pattern_matches "user." "user.created" H)].
Defined.


(** ** The loops of [Unregister] *)

Section RegistryLoops.

Lemma namedOf_omap (given : list Listener) : namedOf given = omap asNamable given.
Proof.
  unfold namedOf.
  enough (forall a,
    foldl (fun acc listener =>
             match Name listener with
             | Some n => acc ++ [(n, listener)]
             | None => acc
             end) a given = a ++ omap asNamable given) as H by apply H.
  induction given as [|l ls IH]; intros a; simpl.
  - by rewrite app_nil_r.
  - unfold asNamable. destruct (Name l); rewrite IH; [|done].
    by rewrite <- app_assoc.
Qed.

Lemma splitNamed_omap (ls : list Listener) :
  splitNamed ls = (omap asNamable ls, omap asUnnamed ls).
Proof.
  unfold splitNamed.
  enough (forall a b,
    foldl (fun '(lsCopy, newLs) listener =>
             match Name listener with
             | Some n => (lsCopy ++ [(n, listener)], newLs)
             | None => (lsCopy, newLs ++ [listener])
             end) (a, b) ls
    = (a ++ omap asNamable ls, b ++ omap asUnnamed ls)) as H by apply H.
  induction ls as [|l ls IH]; intros a b; simpl.
  - by rewrite !app_nil_r.
  - unfold asNamable, asUnnamed. destruct (Name l); rewrite IH.
    + by rewrite <- app_assoc.
    + by rewrite <- app_assoc.
Qed.

Lemma inner_loop (named : list Namable) (x : Namable) (acc : list Listener) :
  foldl (fun acc' (l : Namable) =>
           if negb (eqs (fst x) (fst l)) then acc' ++ [snd x] else acc')
        acc named = acc ++ copiesOf named x.
Proof.
  unfold copiesOf. revert acc; induction named as [|l named IH]; intros acc; simpl.
  - by rewrite app_nil_r.
  - rewrite IH. destruct (negb _); [|done]. by rewrite <- app_assoc.
Qed.

Lemma keepLoop_flat_map (lsCopy named : list Namable) (newLs : list Listener) :
  keepLoop lsCopy named newLs = newLs ++ flat_map (copiesOf named) lsCopy.
Proof.
  unfold keepLoop. revert newLs; induction lsCopy as [|x xs IH]; intros newLs; simpl.
  - by rewrite app_nil_r.
  - rewrite inner_loop, IH. by rewrite <- app_assoc.
Qed.

(** A listener whose name equals every given identity is dropped. *)
Lemma copiesOf_all_equal (named : list Namable) (x : Namable) :
  Forall (fun l : Namable => l.1 = x.1) named -> copiesOf named x = [].
Proof.
  unfold copiesOf. induction 1 as [|l named Hl _ IH]; simpl; [done|].
  rewrite IH, Hl, eqs_refl. done.
Qed.

(** With a single given identity the inner loop is a filter. *)
Lemma copiesOf_single (n : string) (g : Listener) (x : Namable) :
  copiesOf [(n, g)] x = if bool_decide (x.1 = n) then [] else [x.2].
Proof.
  unfold copiesOf, eqs. simpl. rewrite app_nil_r.
  by destruct (bool_decide (x.1 = n)).
Qed.

End RegistryLoops.

(** ** The registry *)

Section RegistryFacts.

Context {W Err : Type}.
Implicit Types (st : State W Err) (ls given : list Listener).

Lemma length_zero_nil {A} (l : list A) :
  bool_decide (length l = 0%nat) = true <-> l = [].
Proof. rewrite bool_decide_eq_true. by destruct l. Qed.

Lemma length_zero_cons {A} (l : list A) :
  l <> [] -> bool_decide (length l = 0%nat) = false.
Proof. intros H. apply bool_decide_eq_false. by destruct l. Qed.

Lemma Register_state st (p : string) (l : Listener) :
  Register p l st =
  Ok tt (mkState (<[p := default [] (listeners st !! p) ++ [l]]> (listeners st))
                 (world st) (trace st ++ [Debug "eventify register"])).
Proof.
  unfold Register, bind, LoadOrStore, Store, log_Debug.
  destruct (listeners st !! p) as [old|] eqn:E; simpl; [done|].
  by rewrite insert_insert_eq.
Qed.

Lemma Unregister_all st (p : string) :
  Unregister p [] st = Ok tt (mkState (delete p (listeners st)) (world st) (trace st)).
Proof. reflexivity. Qed.

(** The state written by [Unregister] on the path that reaches [Store]. *)
Lemma Unregister_named st (p : string) ls given :
  omap asNamable given <> [] ->
  listeners st !! p = Some ls ->
  omap asNamable ls <> [] ->
  Unregister p given st =
  Ok tt (mkState
           (<[p := omap asUnnamed ls ++
                   flat_map (copiesOf (omap asNamable given)) (omap asNamable ls)]>
              (listeners st))
           (world st) (trace st ++ [Debug "eventify unregister"])).
Proof.
  intros Hg Hp Hl. unfold Unregister.
  rewrite length_zero_cons by (intros ->; by apply Hg).
  unfold bind, log_Debug. rewrite namedOf_omap, (length_zero_cons _ Hg).
  unfold Load. simpl. rewrite Hp, splitNamed_omap, (length_zero_cons _ Hl).
  unfold Store. simpl. by rewrite keepLoop_flat_map.
Qed.

(** When nothing under the pattern carries a name, nothing is written. *)
Lemma Unregister_no_named st (p : string) ls given :
  omap asNamable given <> [] ->
  listeners st !! p = Some ls ->
  omap asNamable ls = [] ->
  Unregister p given st =
  Ok tt (mkState (listeners st) (world st)
                 (trace st ++ [Debug "eventify unregister"])).
Proof.
  intros Hg Hp Hl. unfold Unregister.
  rewrite length_zero_cons by (intros ->; by apply Hg).
  unfold bind, log_Debug. rewrite namedOf_omap, (length_zero_cons _ Hg).
  unfold Load. simpl. rewrite Hp, splitNamed_omap, Hl. done.
Qed.

Lemma omap_asNamable_all_named (n : string) ls :
  Forall (fun l => Name l = Some n) ls ->
  omap asUnnamed ls = [] /\
  Forall (fun x : Namable => x.1 = n) (omap asNamable ls).
Proof.
  induction 1 as [|l ls Hl _ [IH1 IH2]]; simpl; [done|].
  unfold asUnnamed, asNamable. rewrite Hl. split; [done|]. by constructor.
Qed.

Lemma omap_asNamable_given (n : string) given :
  Forall (fun g => Name g = None \/ Name g = Some n) given ->
  Forall (fun x : Namable => x.1 = n) (omap asNamable given).
Proof.
  induction 1 as [|g given Hg _ IH]; simpl; [done|].
  unfold asNamable at 1. destruct Hg as [-> | ->]; [done|]. by constructor.
Qed.

Lemma omap_asNamable_exists (n : string) given :
  Exists (fun g => Name g = Some n) given -> omap asNamable given <> [].
Proof.
  induction 1 as [g given Hg | g given _ IH]; simpl.
  - unfold asNamable at 1. by rewrite Hg.
  - destruct (asNamable g); [done | exact IH].
Qed.

Lemma single_identity_perm (n : string) (g : Listener) ls :
  omap asUnnamed ls ++ flat_map (copiesOf [(n, g)]) (omap asNamable ls)
  ≡ₚ filter (fun l => Name l <> Some n) ls.
Proof.
  induction ls as [|l ls IH]; [done|].
  rewrite filter_cons. simpl. unfold asUnnamed at 1, asNamable at 1.
  destruct (Name l) as [m|] eqn:Hm.
  - simpl. unfold eqs. destruct (decide (m = n)) as [->|Hne].
    + rewrite bool_decide_eq_true_2 by done. rewrite decide_False by (by intros H).
      exact IH.
    + rewrite bool_decide_eq_false_2 by done. rewrite decide_True by congruence.
      simpl. rewrite <- Permutation_middle. by constructor.
  - rewrite decide_True by done. simpl. by constructor.
Qed.

Lemma omap_asUnnamed_all ls : omap asNamable ls = [] -> omap asUnnamed ls = ls.
Proof.
  induction ls as [|l ls IH]; [done|]. simpl. unfold asNamable at 1, asUnnamed at 1.
  destruct (Name l); [done|]. intros H. f_equal. by apply IH.
Qed.

(** With one given identity [n], [Unregister] keeps, up to order, exactly the
    registered listeners whose name is not [n], each as often as before. *)
Lemma Unregister_single_identity st (p n : string) (g : Listener) ls given :
  omap asNamable given = [(n, g)] ->
  listeners st !! p = Some ls ->
  exists st' ls',
    Unregister p given st = Ok tt st' /\
    listeners st' !! p = Some ls' /\
    ls' ≡ₚ filter (fun l => Name l <> Some n) ls.
Proof.
  intros Hg Hp.
  assert (omap asNamable given <> []) as Hne by (by rewrite Hg).
  destruct (decide (omap asNamable ls = [])) as [Hnil|Hl].
  - eexists _, ls. split; [by apply (Unregister_no_named _ _ ls)|]. simpl.
    split; [done|]. rewrite <- (single_identity_perm n g ls), Hnil. simpl.
    by rewrite app_nil_r, omap_asUnnamed_all.
  - eexists _, _. split; [by apply (Unregister_named _ _ ls)|]. simpl.
    split; [by rewrite lookup_insert_eq|]. rewrite Hg. apply single_identity_perm.
Qed.

(** C1 (code behaviour with two given identities): every registered named
    listener is appended once for each given identity that differs from its
    own, so with the two identities ["l1"] and ["l2"] given, the registered
    ["l1"] and ["l2"] both stay, and a registered ["l3"] is stored twice. *)
Theorem Unregister_two_identities :
  let l1 := NewNamedListener "l1" 1 in
  let l2 := NewNamedListener "l2" 2 in
  let l3 := NewNamedListener "l3" 3 in
  let st12 : State unit unit :=
    final (Register "test.event" l2 (final (Register "test.event" l1 (start tt)))) in
  let st3 : State unit unit := final (Register "test.event" l3 (start tt)) in
  listeners st12 !! "test.event" = Some [l1; l2] /\
  listeners (final (Unregister "test.event" [l1; l2] st12)) !! "test.event"
    = Some [l1; l2] /\
  listeners (final (Unregister "test.event" [l1; l2] st3)) !! "test.event"
    = Some [l3; l3].
Proof. vm_compute. done. Qed.

(** C3 (as stated) fails: removing the only subscriber by identity leaves the
    pattern in the table. *)
Lemma Unregister_last_entry_counterexample :
  let l1 := NewNamedListener "l1" 1 in
  let st : State unit unit := final (Register "test.event" l1 (start tt)) in
  listeners st !! "test.event" = Some [l1] /\
  listeners (final (Unregister "test.event" [l1] st)) !! "test.event" <> None.
Proof. vm_compute. done. Qed.

(** C3 (amended): when every listener registered under [p] carries the name
    [n], and the given listeners that carry a name all carry [n] (at least
    one does), [Unregister] returns and leaves the entry for [p] in the table
    with the empty list, whereas the remove-all call deletes the entry. *)
Theorem Unregister_last_leaves_empty_entry st (p n : string) ls given :
  listeners st !! p = Some ls ->
  Forall (fun l => Name l = Some n) ls ->
  Forall (fun g => Name g = None \/ Name g = Some n) given ->
  Exists (fun g => Name g = Some n) given ->
  exists st', Unregister p given st = Ok tt st' /\
              listeners st' !! p = Some [] /\
              listeners (final (Unregister p [] st)) !! p = None.
Proof.
  intros Hp Hls Hgiven Hex.
  pose proof (omap_asNamable_exists _ _ Hex) as Hg.
  destruct (omap_asNamable_all_named _ _ Hls) as [Hun Hnamed].
  pose proof (omap_asNamable_given _ _ Hgiven) as Hgn.
  destruct (decide (omap asNamable ls = [])) as [Hnil|Hne].
  - eexists. split; [by apply (Unregister_no_named _ _ ls)|]. simpl.
    split; [|by rewrite lookup_delete_eq].
    rewrite Hp. f_equal. destruct ls as [|l ls]; [done|].
    apply Forall_cons in Hls as [Hl _]. simpl in Hnil.
    unfold asNamable in Hnil at 1. by rewrite Hl in Hnil.
  - eexists. split; [by apply (Unregister_named _ _ ls)|]. simpl.
    split; [|by rewrite lookup_delete_eq].
    rewrite lookup_insert_eq, Hun. f_equal. simpl.
    clear Hne. induction Hnamed as [|x xs Hx _ IH]; simpl; [done|].
    rewrite IH, app_nil_r. apply copiesOf_all_equal.
    eapply Forall_impl; [exact Hgn|]. simpl. intros y ->. done.
Qed.

End RegistryFacts.

Lemma Unregister_last_leaves_empty_entry_witness :
  let l1 := NewNamedListener "l1" 1 in
  let st : State unit unit := final (Register "test.event" l1 (start tt)) in
  exists st' : State unit unit, Unregister "test.event" [l1] st = Ok tt st' /\
              listeners st' !! "test.event" = Some [] /\
              listeners (final (Unregister "test.event" [] st)) !! "test.event" = None.
Proof.
  intros l1 st.
  apply (Unregister_last_leaves_empty_entry st "test.event" "l1" [l1] [l1]).
  - reflexivity.
  - repeat constructor.
  - constructor; [by right | constructor].
  - by constructor.
Defined.

(** ** Dispatch *)

Section DispatchFacts.

Context {W Err : Type} `{HH : Handlers W Err}.
Implicit Types (st : State W Err) (ls : list Listener) (ev : Event)
  (tr : list (Call Err)) (t : gmap string (list Listener)) (w : W).

Lemma delivered_app tr1 tr2 : delivered (tr1 ++ tr2) = delivered tr1 ++ delivered tr2.
Proof. apply omap_app. Qed.

Lemma invoked_app tr1 tr2 : invoked (tr1 ++ tr2) = invoked tr1 ++ invoked tr2.
Proof. apply omap_app. Qed.

Lemma failures_app tr1 tr2 : failures (tr1 ++ tr2) = failures tr1 ++ failures tr2.
Proof. apply omap_app. Qed.

Lemma callbacks_app tr1 tr2 : callbacks (tr1 ++ tr2) = callbacks tr1 ++ callbacks tr2.
Proof. apply omap_app. Qed.

Lemma routed_app tr1 tr2 : routed tr1 -> routed tr2 -> routed (tr1 ++ tr2).
Proof. induction 1; intros H2; simpl; try constructor; auto. Qed.

Lemma sync_record_app ev ls1 ls2 tr1 tr2 :
  sync_record ev ls1 tr1 -> sync_record ev ls2 tr2 ->
  sync_record ev (ls1 ++ ls2) (tr1 ++ tr2).
Proof.
  intros [D1 I1 C1 F1 R1] [D2 I2 C2 F2 R2]. split.
  - by rewrite delivered_app, D1, D2.
  - by rewrite invoked_app, I1, I2.
  - rewrite callbacks_app, failures_app, C1, C2. by destruct (hasErrorHandler ev).
  - rewrite failures_app. by apply Forall_app.
  - intros He. apply routed_app; auto.
Qed.

Lemma sync_delivery_record ev (l : Listener) t w t' w' tr :
  sync_delivery ev l t w = Some (t', w', tr) -> sync_record ev [l] tr.
Proof.
  unfold sync_delivery.
  destruct (Handle l ev t w) as [[e|] t1 w1|]; [| |done].
  - destruct (hasErrorHandler ev) eqn:He.
    + destruct (ErrorHandler ev ev e t1 w1) as [[] t2 w2|]; [|done].
      intros [= <- <- <-]. split; simpl; rewrite ?He; try done.
      * by repeat constructor.
      * intros _. by repeat constructor.
    + intros [= <- <- <-]. split; simpl; rewrite ?He; try done.
      by repeat constructor.
  - intros [= <- <- <-]. split; simpl; try done.
    + by destruct (hasErrorHandler ev).
    + intros _. by repeat constructor.
Qed.

Lemma sync_deliveries_record ev ls t w t' w' tr :
  sync_deliveries ev ls t w = Some (t', w', tr) -> sync_record ev ls tr.
Proof.
  revert t w tr; induction ls as [|l ls IH]; intros t w tr; simpl.
  - intros [= <- <- <-]. split; simpl; try done.
    + by destruct (hasErrorHandler ev).
    + intros _. constructor.
  - destruct (sync_delivery ev l t w) as [[[t1 w1] tr1]|] eqn:E1; [|done].
    destruct (sync_deliveries ev ls t1 w1) as [[[t2 w2] tr2]|] eqn:E2; [|done].
    intros [= <- <- <-].
    apply (sync_record_app ev [l] ls).
    + by apply (sync_delivery_record ev l t w t1 w1).
    + by apply (IH t1 w1).
Qed.

(** The inline branch of [_Trigger] makes the delivery the specification
    words. *)
Lemma _Trigger_sync ev (l : Listener) st t' w' tr :
  isAsyncEvent ev = false -> isAsyncListener l = false ->
  sync_delivery ev l (listeners st) (world st) = Some (t', w', tr) ->
  _Trigger ev l (isAsyncEvent ev || isAsyncListener l) st
  = Ok tt (mkState t' w' (trace st ++ tr)).
Proof.
  intros Ha Hl. unfold _Trigger, sync_delivery, bind, call_Handle.
  rewrite Ha, Hl. simpl.
  destruct (Handle l ev (listeners st) (world st)) as [[e|] t1 w1|]; [| |done].
  - destruct (hasErrorHandler ev).
    + unfold call_ErrorHandler. simpl.
      destruct (ErrorHandler ev ev e t1 w1) as [[] t2 w2|]; [|done].
      intros [= <- <- <-]. by rewrite <- app_assoc.
    + by intros [= <- <- <-].
  - by intros [= <- <- <-].
Qed.

(** It panics when one of the two calls of that delivery panics. *)
Lemma _Trigger_sync_panics ev (l : Listener) st :
  isAsyncEvent ev = false -> isAsyncListener l = false ->
  sync_delivery ev l (listeners st) (world st) = None ->
  exists st', _Trigger ev l (isAsyncEvent ev || isAsyncListener l) st = Panic st'.
Proof.
  intros Ha Hl. unfold _Trigger, sync_delivery, bind, call_Handle.
  rewrite Ha, Hl. simpl.
  destruct (Handle l ev (listeners st) (world st)) as [[e|] t1 w1|]; [| |eauto].
  - destruct (hasErrorHandler ev); [|done].
    unfold call_ErrorHandler. simpl.
    destruct (ErrorHandler ev ev e t1 w1) as [[] t2 w2|]; [done|eauto].
  - done.
Qed.

Lemma for_each_sync ev ls st t' w' tr :
  isAsyncEvent ev = false ->
  Forall (fun l => isAsyncListener l = false) ls ->
  sync_deliveries ev ls (listeners st) (world st) = Some (t', w', tr) ->
  for_each ls (fun l => _Trigger ev l (isAsyncEvent ev || isAsyncListener l)) st
  = Ok tt (mkState t' w' (trace st ++ tr)).
Proof.
  intros Ha Hls. revert st tr.
  induction Hls as [|l ls Hl _ IH]; intros st tr; simpl.
  - intros [= <- <- <-]. rewrite app_nil_r. by destruct st.
  - destruct (sync_delivery ev l (listeners st) (world st))
      as [[[t1 w1] tr1]|] eqn:E1; [|done].
    destruct (sync_deliveries ev ls t1 w1) as [[[t2 w2] tr2]|] eqn:E2; [|done].
    intros [= <- <- <-]. unfold bind at 1.
    rewrite (_Trigger_sync ev l st t1 w1 tr1 Ha Hl E1).
    rewrite (IH (mkState t1 w1 (trace st ++ tr1)) tr2 E2). simpl.
    by rewrite <- app_assoc.
Qed.

Lemma for_each_sync_panics ev ls st :
  isAsyncEvent ev = false ->
  Forall (fun l => isAsyncListener l = false) ls ->
  sync_deliveries ev ls (listeners st) (world st) = None ->
  exists st',
    for_each ls (fun l => _Trigger ev l (isAsyncEvent ev || isAsyncListener l)) st
    = Panic st'.
Proof.
  intros Ha Hls. revert st.
  induction Hls as [|l ls Hl _ IH]; intros st; simpl; [done|].
  destruct (sync_delivery ev l (listeners st) (world st))
    as [[[t1 w1] tr1]|] eqn:E1.
  - destruct (sync_deliveries ev ls t1 w1) as [[[t2 w2] tr2]|] eqn:E2; [done|].
    intros _. unfold bind at 1.
    rewrite (_Trigger_sync ev l st t1 w1 tr1 Ha Hl E1).
    by apply (IH (mkState t1 w1 (trace st ++ tr1))).
  - intros _. unfold bind at 1.
    destruct (_Trigger_sync_panics ev l st Ha Hl E1) as [st' ->]. eauto.
Qed.

Lemma _MatchedListeners_cases (name : string) st :
  (exists ls, _MatchedListeners name st = Ok ls st) \/
  _MatchedListeners name st = Panic st.
Proof. unfold _MatchedListeners. destruct (collect _ _ _); eauto. Qed.

(** A synchronous publish whose collection phase returned [ls] ends in the
    state the specification words, when no handler or callback call
    panics. *)
Lemma _Emit_sync ev ls st st' :
  isAsyncEvent ev = false ->
  Forall (fun l => isAsyncListener l = false) ls ->
  _MatchedListeners (Type_ ev) st = Ok ls st ->
  sync_publish ev ls st = Some st' ->
  _Emit ev st = Ok tt st'.
Proof.
  intros Ha Hls Hm. unfold sync_publish.
  destruct (sync_deliveries ev ls (listeners st) (world st))
    as [[[t w] tr]|] eqn:E; [|done].
  intros [= <-]. unfold _Emit, bind.
  rewrite Hm, (for_each_sync ev ls st t w tr Ha Hls E).
  unfold log_Debug. simpl. by rewrite <- app_assoc.
Qed.

(** And it panics when one of these calls panics. *)
Lemma _Emit_sync_panics ev ls st :
  isAsyncEvent ev = false ->
  Forall (fun l => isAsyncListener l = false) ls ->
  _MatchedListeners (Type_ ev) st = Ok ls st ->
  sync_publish ev ls st = None ->
  exists st', _Emit ev st = Panic st'.
Proof.
  intros Ha Hls Hm. unfold sync_publish.
  destruct (sync_deliveries ev ls (listeners st) (world st))
    as [[[t w] tr]|] eqn:E; [done|].
  intros _. unfold _Emit, bind. rewrite Hm.
  destruct (for_each_sync_panics ev ls st Ha Hls E) as [st' ->]. eauto.
Qed.

Lemma _Emit_panic ev st :
  _MatchedListeners (Type_ ev) st = Panic st -> _Emit ev st = Panic st.
Proof. intros Hm. unfold _Emit, bind. by rewrite Hm. Qed.

(** The table under handlers that leave it as they found it. *)
Lemma final_bind {A B} (m : M W Err A) (k : A -> M W Err B) st :
  final (bind m k st)
  = match m st with
    | Ok a st1 => final (k a st1)
    | Panic st1 => st1
    end.
Proof. unfold bind. by destruct (m st). Qed.

Lemma _Trigger_table ev (l : Listener) (a : bool) st :
  (forall t w, table_of (Handle l ev t w) = t) ->
  (forall e t w, table_of (ErrorHandler ev ev e t w) = t) ->
  listeners (final (_Trigger ev l a st)) = listeners st.
Proof.
  intros Hh He. unfold _Trigger. destruct a; [done|].
  rewrite final_bind. unfold call_Handle.
  pose proof (Hh (listeners st) (world st)) as H1.
  destruct (Handle l ev (listeners st) (world st)) as [[e|] t1 w1|];
    simpl in *; subst; try done.
  destruct (hasErrorHandler ev); [|done]. unfold call_ErrorHandler. simpl.
  pose proof (He e (listeners st) w1) as H2.
  by destruct (ErrorHandler ev ev e (listeners st) w1).
Qed.

Lemma for_each_table ev ls st :
  (forall l t w, table_of (Handle l ev t w) = t) ->
  (forall e t w, table_of (ErrorHandler ev ev e t w) = t) ->
  listeners
    (final (for_each ls
              (fun l => _Trigger ev l (isAsyncEvent ev || isAsyncListener l)) st))
  = listeners st.
Proof.
  intros Hh He. revert st; induction ls as [|l ls IH]; intros st; [done|].
  simpl for_each. rewrite final_bind.
  pose proof (_Trigger_table ev l (isAsyncEvent ev || isAsyncListener l) st
                (Hh l) He) as H1.
  destruct (_Trigger ev l _ st) as [[] st1|st1]; simpl in H1; [|done].
  by rewrite IH.
Qed.

Lemma _Emit_table ev st :
  (forall l t w, table_of (Handle l ev t w) = t) ->
  (forall e t w, table_of (ErrorHandler ev ev e t w) = t) ->
  listeners (final (_Emit ev st)) = listeners st.
Proof.
  intros Hh He. unfold _Emit. rewrite final_bind.
  destruct (_MatchedListeners_cases (Type_ ev) st) as [[ls ->] | ->]; [|done].
  rewrite final_bind.
  pose proof (for_each_table ev ls st Hh He) as H1.
  destruct (for_each ls _ st) as [[] st1|st1]; simpl in H1; done.
Qed.

End DispatchFacts.

(** ** Collection of the matching listeners *)

Section CollectFacts.

Implicit Types (entries : list (string * list Listener)) (ls : list Listener).

Lemma selected_true (p name : string) ls :
  matches p name = Some true -> selected name (p, ls) = ls.
Proof. unfold selected. simpl. by intros ->. Qed.

Lemma matches_nonempty (p name : string) (b : bool) :
  matches p name = Some b -> p <> "".
Proof. by intros H ->. Qed.

Lemma collect_ok entries (name : string) ls :
  Forall (fun kv : string * list Listener => kv.1 <> "") entries ->
  collect entries name ls = Some (ls ++ flat_map (selected name) entries).
Proof.
  intros H. revert ls. induction H as [|[k v] entries Hk _ IH]; intros ls; simpl.
  - by rewrite app_nil_r.
  - unfold selected at 1, matches. simpl in *.
    destruct (NewMatcher_total k Hk) as [m ->].
    destruct (Match_total m name) as [b ->].
    rewrite IH. destruct b; [by rewrite <- app_assoc | done].
Qed.

(** An empty pattern in the table makes the collection panic. *)
Lemma collect_empty_pattern entries (name : string) ls :
  Exists (fun kv : string * list Listener => kv.1 = "") entries ->
  collect entries name ls = None.
Proof.
  intros H. revert ls. induction H as [[k v] entries Hk | [k v] entries _ IH];
    intros ls; simpl in *.
  - by rewrite Hk.
  - destruct (NewMatcher k); [|done]. destruct (Match _ _); [|done]. apply IH.
Qed.

Lemma flat_map_selected_perm entries entries' (name : string) :
  entries ≡ₚ entries' ->
  flat_map (selected name) entries ≡ₚ flat_map (selected name) entries'.
Proof.
  induction 1 as [|x l l' _ IH|x y l|l l' l'' _ IH1 _ IH2]; simpl.
  - done.
  - by rewrite IH.
  - rewrite !app_assoc. f_equiv. apply Permutation_app_comm.
  - by rewrite IH1.
Qed.

End CollectFacts.

(** ** Registration followed by a publish *)

Section RegisterAll.

Context {W Err : Type}.
Implicit Types (st : State W Err) (ls : list Listener).

Lemma register_log_silent (n : nat) :
  delivered (Err:=Err) (register_log n) = [] /\
  invoked (Err:=Err) (register_log n) = [].
Proof. unfold register_log. induction n as [|n [IH1 IH2]]; simpl; done. Qed.

(** Registering [ls] one by one under the same pattern appends them, in
    order, to the list held for the pattern. *)
Lemma register_same_pattern (p : string) ls st :
  exists st',
    for_each ls (Register p) st = Ok tt st' /\
    listeners st' = match ls with
                    | [] => listeners st
                    | _ => <[p := default [] (listeners st !! p) ++ ls]> (listeners st)
                    end /\
    world st' = world st /\
    trace st' = trace st ++ register_log (length ls).
Proof.
  revert st; induction ls as [|l ls IH]; intros st.
  - exists st. split; [done|]. split; [done|]. split; [done|].
    by rewrite app_nil_r.
  - simpl for_each. unfold bind. rewrite Register_state.
    destruct (IH (mkState (<[p := default [] (listeners st !! p) ++ [l]]> (listeners st))
                          (world st) (trace st ++ [Debug "eventify register"])))
      as (st' & E & L & Wd & T).
    exists st'. split; [exact E|]. split; [|split; [exact Wd|]].
    + rewrite L. simpl. destruct ls as [|l' ls']; [done|].
      rewrite lookup_insert_eq. simpl. rewrite insert_insert_eq.
      by rewrite <- app_assoc.
    + rewrite T. simpl. by rewrite <- app_assoc.
Qed.

(** Registering one listener under pairwise distinct fresh patterns that all
    match [name]: the table then selects the listener once per pattern. *)
Lemma register_many_patterns (l : Listener) (name : string) (ps : list string) :
  NoDup ps ->
  Forall (fun p => matches p name = Some true) ps ->
  forall st (k : nat),
    Forall (fun p => listeners st !! p = None) ps ->
    Forall (fun kv : string * list Listener => kv.1 <> "")
           (map_to_list (listeners st)) ->
    flat_map (selected name) (map_to_list (listeners st)) ≡ₚ replicate k l ->
    exists st',
      for_each ps (fun p => Register p l) st = Ok tt st' /\
      world st' = world st /\
      trace st' = trace st ++ register_log (length ps) /\
      Forall (fun kv : string * list Listener => kv.1 <> "")
             (map_to_list (listeners st')) /\
      flat_map (selected name) (map_to_list (listeners st'))
        ≡ₚ replicate (k + length ps) l.
Proof.
  induction 1 as [|p ps Hp Hnd IH]; intros Hm st k Hfresh Hkeys Hsel.
  - exists st. split; [done|]. split; [done|]. split; [by rewrite app_nil_r|].
    split; [done|]. by rewrite Nat.add_0_r.
  - apply Forall_cons in Hm as [Hmp Hm]. apply Forall_cons in Hfresh as [Hfp Hfresh].
    simpl for_each. unfold bind. rewrite Register_state, Hfp. simpl.
    set (st1 := mkState (<[p := [l]]> (listeners st)) (world st)
                        (trace st ++ [Debug "eventify register"])).
    assert (map_to_list (listeners st1) ≡ₚ (p, [l]) :: map_to_list (listeners st))
      as Hperm by (by apply map_to_list_insert).
    destruct (IH Hm st1 (S k)) as (st' & E & Wd & T & K & S').
    + apply Forall_forall. intros q Hq. rewrite Forall_forall in Hfresh. simpl.
      rewrite lookup_insert_ne; [by apply Hfresh|]. intros ->. by apply Hp.
    + rewrite Hperm. constructor; [|done]. simpl. by eapply matches_nonempty.
    + rewrite (flat_map_selected_perm _ _ name Hperm). simpl.
      rewrite (selected_true _ _ _ Hmp). simpl. by rewrite Hsel.
    + exists st'. split; [exact E|]. split; [by rewrite Wd|].
      split; [rewrite T; simpl; by rewrite <- app_assoc|].
      split; [done|]. rewrite S'. by replace (S k + length ps)%nat
        with (k + S (length ps))%nat by lia.
Qed.

End RegisterAll.

(** ** Properties of a publish *)

Section PublishFacts.

Context {W Err : Type} `{HH : Handlers W Err}.
Implicit Types (st : State W Err) (ls : list Listener) (ev : Event).

Lemma _MatchedListeners_ok (name : string) st :
  Forall (fun kv : string * list Listener => kv.1 <> "")
         (map_to_list (listeners st)) ->
  _MatchedListeners name st
  = Ok (flat_map (selected name) (map_to_list (listeners st))) st.
Proof. intros H. unfold _MatchedListeners. by rewrite (collect_ok _ _ _ H). Qed.

(** A publish panics as soon as the empty pattern is registered. *)
Lemma _Emit_empty_pattern_panics ev st :
  is_Some (listeners st !! "") -> _Emit ev st = Panic st.
Proof.
  intros [v Hv]. apply _Emit_panic. unfold _MatchedListeners.
  rewrite collect_empty_pattern; [done|].
  apply Exists_exists. exists ("", v). split; [|done].
  by apply elem_of_map_to_list.
Qed.

Lemma sync_publish_trace ev ls st st' :
  sync_publish ev ls st = Some st' ->
  exists tr, trace st' = trace st ++ tr ++ [Debug "eventify emited"] /\
             sync_record ev ls tr.
Proof.
  unfold sync_publish.
  destruct (sync_deliveries ev ls (listeners st) (world st))
    as [[[t w] tr]|] eqn:E; [|done].
  intros [= <-]. exists tr. split; [done|].
  by apply (sync_deliveries_record ev ls (listeners st) (world st) t w tr).
Qed.

(** C6: take a publish of an event that is not asynchronous and carries a
    failure callback, whose collection phase returned the listeners [ls],
    none of them asynchronous, and in which no handler or callback call
    panics.  The publish returns (no error reaches the publisher) in the
    state obtained by calling, for each listener of [ls] in turn, its handler
    and, when the handler returned an error, the callback of the event on
    the event and that very error.  So every listener of [ls] is invoked
    once per occurrence whatever the others return, and the callback is
    called once for each handler call that returned an error, right after
    that call. *)
Theorem handler_failure_routed_to_callback st ev ls
    (t' : gmap string (list Listener)) (w' : W) (tr : list (Call Err)) :
  hasErrorHandler ev = true ->
  isAsyncEvent ev = false ->
  Forall (fun l => isAsyncListener l = false) ls ->
  _MatchedListeners (Type_ ev) st = Ok ls st ->
  sync_deliveries ev ls (listeners st) (world st) = Some (t', w', tr) ->
  _Emit ev st
  = Ok tt (mkState t' w' (trace st ++ tr ++ [Debug "eventify emited"])) /\
  delivered tr = ls /\
  invoked tr = ls /\
  callbacks tr = failures tr /\
  Forall (fun c : Event * Err => c.1 = ev) (callbacks tr) /\
  routed tr.
Proof.
  intros Hh Ha Hls Hm Hd.
  destruct (sync_deliveries_record ev ls _ _ _ _ _ Hd) as [D I C F R].
  rewrite Hh in C. split.
  - apply (_Emit_sync ev ls st _ Ha Hls Hm). unfold sync_publish. by rewrite Hd.
  - rewrite C. repeat split; auto.
Qed.

(** C7 (amended): [EmitBy] publishes an event payload unchanged; otherwise it
    publishes [(t, bytes)], where [bytes] is the text of a text payload, the
    byte payload itself, the nil payload for the nil payload, and for any
    other payload what [json.Marshal] returns, the nil payload when it
    fails. *)
Theorem EmitBy_cases (t : string) :
  (forall e enc, EmitBy t (AnyValue (VEvent e enc)) = _Emit e) /\
  (forall s, EmitBy t (AnyString s) = _Emit (NewEvent t (Some s))) /\
  (forall b, EmitBy t (AnyBytes b) = _Emit (NewEvent t b)) /\
  EmitBy t (AnyValue VNil) = _Emit (NewEvent t None) /\
  (forall enc, EmitBy t (AnyValue (VOther enc))
               = _Emit (NewEvent t (json_Marshal (VOther enc)))) /\
  EmitBy t (AnyValue (VOther None)) = _Emit (NewEvent t None).
Proof.
  repeat split; try done. intros [bz|]; done.
Qed.

(** C8: take an event that is not asynchronous and listeners that are not
    asynchronous, and suppose no handler or callback call panics.  After
    registering, from the empty table, (1) the listeners [ls] under one
    matching pattern, the publish returns in the state obtained by calling
    the handler of each listener of [ls] once, in order of registration;
    (2) one listener under pairwise distinct patterns that all match, the
    publish returns in the state obtained by calling its handler once per
    pattern. *)
Theorem publish_invokes_each_registration (w : W) ev (p : string) ls
    (l : Listener) (ps : list string) (st1 st2 : State W Err) :
  isAsyncEvent ev = false ->
  matches p (Type_ ev) = Some true ->
  Forall (fun l => isAsyncListener l = false) ls ->
  NoDup ps ->
  Forall (fun p => matches p (Type_ ev) = Some true) ps ->
  isAsyncListener l = false ->
  sync_publish ev ls (final (for_each ls (Register p) (start w))) = Some st1 ->
  sync_publish ev (replicate (length ps) l)
    (final (for_each ps (fun p => Register p l) (start w))) = Some st2 ->
  (bind (for_each ls (Register p)) (fun _ => _Emit ev) (start w) = Ok tt st1 /\
   invoked (trace st1) = ls) /\
  (bind (for_each ps (fun p => Register p l)) (fun _ => _Emit ev) (start w)
   = Ok tt st2 /\
   invoked (trace st2) = replicate (length ps) l).
Proof.
  intros Ha Hp Hls Hnd Hps Hl H1 H2. split.
  - destruct (register_same_pattern p ls (start (Err:=Err) w))
      as (st0 & E0 & L0 & _ & T0).
    rewrite E0 in H1. simpl in H1.
    assert (_MatchedListeners (Type_ ev) st0 = Ok ls st0) as Hm.
    { rewrite _MatchedListeners_ok; rewrite L0; destruct ls as [|l0 ls0]; simpl.
      - by rewrite map_to_list_empty.
      - rewrite lookup_empty, insert_empty, map_to_list_singleton. simpl.
        by rewrite (selected_true _ _ _ Hp), app_nil_r.
      - by rewrite map_to_list_empty.
      - rewrite insert_empty, map_to_list_singleton.
        constructor; [|done]. simpl. by eapply matches_nonempty. }
    unfold bind. rewrite E0. split; [by apply (_Emit_sync ev ls)|].
    destruct (sync_publish_trace ev ls st0 st1 H1) as (tr & -> & [_ I _ _ _]).
    rewrite T0, !invoked_app, I. simpl.
    by rewrite (proj2 (register_log_silent _)), app_nil_r.
  - destruct (register_many_patterns l (Type_ ev) ps Hnd Hps (start (Err:=Err) w) 0)
      as (st0 & E0 & _ & T0 & K0 & S0).
    { apply Forall_forall. intros q _. apply lookup_empty. }
    { simpl. by rewrite map_to_list_empty. }
    { simpl. by rewrite map_to_list_empty. }
    rewrite E0 in H2. simpl in H2.
    simpl in S0. symmetry in S0. apply replicate_Permutation in S0.
    pose proof (_MatchedListeners_ok (Type_ ev) st0 K0) as Hm. rewrite <- S0 in Hm.
    unfold bind. rewrite E0. split.
    + apply (_Emit_sync ev (replicate (length ps) l)); try done.
      by apply Forall_replicate.
    + destruct (sync_publish_trace ev _ st0 st2 H2) as (tr & -> & [_ I _ _ _]).
      rewrite T0, !invoked_app, I. simpl.
      by rewrite (proj2 (register_log_silent _)), app_nil_r.
Qed.

(** C10 (amended): when no handler and no failure callback changes the
    listeners table, the table after [Emit] or [EmitBy], whether the call
    returned or panicked, is the one it was before the call: collection,
    the launch of a task and the log call only read it. *)
Theorem publish_preserves_registry st ev (t : string) (payload : any) :
  (forall l e tb w, table_of (Handle l e tb w) = tb) ->
  (forall recv e err tb w, table_of (ErrorHandler recv e err tb w) = tb) ->
  listeners (final (Emit ev st)) = listeners st /\
  listeners (final (EmitBy t payload st)) = listeners st.
Proof.
  intros Hh He.
  assert (forall e, listeners (final (_Emit e st)) = listeners st) as H.
  { intros e. apply _Emit_table; [intros l; apply Hh | intros err; apply He]. }
  split; [apply H|]. unfold EmitBy. destruct (asEvent payload); apply H.
Qed.

End PublishFacts.

(** ** Scenarios *)

Section Scenario.

Context {W Err : Type} `{HH : Handlers W Err}.

(** The table after [Register("user.*", L1)] and [Register("*.paid", L2)]. *)
Lemma scenario_state (w : W) (L1 L2 : Listener) :
  let st : State W Err :=
    final (Register "*.paid" L2 (final (Register "user.*" L1 (start w)))) in
  listeners st = <["*.paid" := [L2]]> (<["user.*" := [L1]]> ∅) /\
  delivered (trace st) = [].
Proof. intros st. unfold st. rewrite !Register_state. simpl. done. Qed.

Lemma scenario_collect (L1 L2 : Listener) :
  let m : gmap string (list Listener) :=
    <["*.paid" := [L2]]> (<["user.*" := [L1]]> ∅) in
  collect (map_to_list m) "user.created" [] = Some [L1] /\
  collect (map_to_list m) "order.paid" [] = Some [L2] /\
  (exists ls, collect (map_to_list m) "user.paid" [] = Some ls /\ ls ≡ₚ [L1; L2]).
Proof.
  intros m. split; [by vm_compute|]. split; [by vm_compute|].
  exists [L1; L2]. split; [by vm_compute | done].
Qed.

(** C9: with [L1] under ["user.*"] and [L2] under ["*.paid"], neither
    asynchronous, and an event that is not asynchronous: when no call
    panics, publishing an event named ["user.created"] returns in the state
    obtained by calling the handler of [L1] alone, one named ["order.paid"]
    in the state obtained by calling the handler of [L2] alone, and one
    named ["user.paid"] in the state obtained by calling both handlers, once
    each. *)
Theorem scenario_prefix_and_suffix (w : W) (L1 L2 : Listener)
    (payload : option string) (h : bool) :
  isAsyncListener L1 = false ->
  isAsyncListener L2 = false ->
  let st : State W Err :=
    final (Register "*.paid" L2 (final (Register "user.*" L1 (start w)))) in
  let event name := mkEvent name payload false h in
  (forall st', sync_publish (event "user.created") [L1] st = Some st' ->
               _Emit (event "user.created") st = Ok tt st' /\
               delivered (trace st') = [L1]) /\
  (forall st', sync_publish (event "order.paid") [L2] st = Some st' ->
               _Emit (event "order.paid") st = Ok tt st' /\
               delivered (trace st') = [L2]) /\
  (exists ls, ls ≡ₚ [L1; L2] /\
     forall st', sync_publish (event "user.paid") ls st = Some st' ->
                 _Emit (event "user.paid") st = Ok tt st' /\
                 delivered (trace st') = ls).
Proof.
  intros HL1 HL2 st event.
  destruct (scenario_state w L1 L2) as [Hl Ht]. fold st in Hl, Ht.
  destruct (scenario_collect L1 L2) as (C1 & C2 & ls & C3 & P3).
  assert (forall name ls0,
            Forall (fun l => isAsyncListener l = false) ls0 ->
            collect (map_to_list (listeners st)) name [] = Some ls0 ->
            forall st', sync_publish (event name) ls0 st = Some st' ->
                        _Emit (event name) st = Ok tt st' /\
                        delivered (trace st') = ls0) as Hrun.
  { intros name ls0 Hs Hc st' Hp. split.
    - apply (_Emit_sync (event name) ls0 st st'); [reflexivity | exact Hs | | exact Hp].
      unfold _MatchedListeners. simpl. by rewrite Hc.
    - destruct (sync_publish_trace _ _ _ _ Hp) as (tr & -> & [D _ _ _ _]).
      rewrite !delivered_app, Ht, D. simpl. by rewrite app_nil_r. }
  rewrite Hl in Hrun.
  split; [apply Hrun; [by repeat constructor | done]|].
  split; [apply Hrun; [by repeat constructor | done]|].
  exists ls. split; [done|]. apply Hrun; [|done].
  rewrite P3. by repeat constructor.
Qed.

End Scenario.

(** C7 (as stated) fails at the nil payload: it is neither an event, a text
    nor a byte payload, and its serialized encoding is [null], but [EmitBy]
    publishes the nil payload for it. *)
Lemma EmitBy_nil_payload_counterexample :
  let l := NewListener 1 in
  let st : State nat string := final (Register "test.event" l (start 0%nat)) in
  asEvent (AnyValue VNil) = None /\
  bytes_as_specified (AnyValue VNil) = Some "null" /\
  trace (final (EmitBy (HH := sample_handlers) "test.event" (AnyValue VNil) st))
  = [Debug "eventify register";
     Handled l (NewEvent "test.event" None) None;
     Debug "eventify emited"] /\
  NewEvent "test.event" None
  <> NewEvent "test.event" (bytes_as_specified (AnyValue VNil)).
Proof. vm_compute. repeat split; done. Qed.

(** The package's error-handling test: a failing listener and a succeeding
    one under ["error.event"], and an event that carries a failure callback. *)
Example error_event_run :
  let bad := NewListener 7 in
  let good := NewListener 8 in
  let ev := mkEvent "error.event" None false true in
  let st : State nat string :=
    final (Register "error.event" good
             (final (Register "error.event" bad (start 0%nat)))) in
  _Emit (HH := sample_handlers) ev st
  = Ok tt (mkState (listeners st) 102%nat
             (trace st ++ [Handled bad ev (Some "boom"); ErrorHandled ev "boom";
                           Handled good ev None; Debug "eventify emited"])).
Proof. vm_compute. done. Qed.

(** A nil [Listener] is stored by [Register] as it is, and the publish that
    reaches it panics at [listener.Handle]: the listeners after it get
    nothing. *)
Example nil_listener_run :
  let nil := NewListener 0 in
  let good := NewListener 8 in
  let ev := NewEvent "test.event" None in
  let st : State nat string :=
    final (Register "test.event" good
             (final (Register "test.event" nil (start 0%nat)))) in
  listeners st !! "test.event" = Some [nil; good] /\
  _Emit (HH := sample_handlers) ev st = Panic st.
Proof. vm_compute. done. Qed.

Lemma handler_failure_routed_to_callback_witness :
  let bad := NewListener 7 in
  let good := NewListener 8 in
  let ev := mkEvent "error.event" None false true in
  let st : State nat string :=
    final (Register "error.event" good
             (final (Register "error.event" bad (start 0%nat)))) in
  let tr := [Handled bad ev (Some "boom"); ErrorHandled ev "boom";
             Handled good ev None] in
  _Emit (HH := sample_handlers) ev st
  = Ok tt (mkState (listeners st) 102%nat
             (trace st ++ tr ++ [Debug "eventify emited"])) /\
  delivered tr = [bad; good] /\
  invoked tr = [bad; good] /\
  callbacks tr = failures tr /\
  Forall (fun c : Event * string => c.1 = ev) (callbacks tr) /\
  routed tr.
Proof.
  intros bad good ev st tr.
  apply (handler_failure_routed_to_callback (HH := sample_handlers)
           st ev [bad; good] (listeners st) 102%nat tr).
  - reflexivity.
  - reflexivity.
  - by repeat constructor.
  - vm_compute. reflexivity.
  - vm_compute. reflexivity.
Defined.

Lemma publish_invokes_each_registration_witness :
  let l1 := NewListener 1 in
  let l2 := NewListener 2 in
  let l3 := NewListener 3 in
  let ev := NewEvent "user.paid" None in
  let ps := ["user.*"; "*.paid"; "*"] in
  let st1 : State nat string :=
    final (for_each [l1; l2; l3] (Register "user.paid") (start 0%nat)) in
  let st2 : State nat string :=
    final (for_each ps (fun p => Register p l1) (start 0%nat)) in
  let run ls := map (fun l => Handled l ev (None : option string)) ls
                ++ [Debug "eventify emited"] in
  (bind (for_each [l1; l2; l3] (Register "user.paid"))
        (fun _ => _Emit (HH := sample_handlers) ev) (start 0%nat)
   = Ok tt (mkState (listeners st1) 3%nat (trace st1 ++ run [l1; l2; l3])) /\
   invoked (trace st1 ++ run [l1; l2; l3]) = [l1; l2; l3]) /\
  (bind (for_each ps (fun p => Register p l1))
        (fun _ => _Emit (HH := sample_handlers) ev) (start 0%nat)
   = Ok tt (mkState (listeners st2) 3%nat (trace st2 ++ run [l1; l1; l1])) /\
   invoked (trace st2 ++ run [l1; l1; l1]) = replicate (length ps) l1).
Proof.
  intros l1 l2 l3 ev ps st1 st2 run.
  apply (publish_invokes_each_registration (HH := sample_handlers)
           0%nat ev "user.paid" [l1; l2; l3] l1 ps
           (mkState (listeners st1) 3%nat (trace st1 ++ run [l1; l2; l3]))
           (mkState (listeners st2) 3%nat (trace st2 ++ run [l1; l1; l1]))).
  - reflexivity.
  - reflexivity.
  - by repeat constructor.
  - apply (bool_decide_unpack _). reflexivity.
  - by repeat constructor.
  - reflexivity.
  - vm_compute. reflexivity.
  - vm_compute. reflexivity.
Defined.

Lemma scenario_prefix_and_suffix_witness :
  let L1 := NewListener 1 in
  let L2 := NewListener 2 in
  let st : State nat string :=
    final (Register "*.paid" L2 (final (Register "user.*" L1 (start 0%nat)))) in
  let event name := mkEvent name None false false in
  let after name ls :=
    mkState (listeners st) (length ls)
      (trace st ++ map (fun l => Handled l (event name) (None : option string)) ls
                ++ [Debug "eventify emited"]) in
  _Emit (HH := sample_handlers) (event "user.created") st
  = Ok tt (after "user.created" [L1]) /\
  _Emit (HH := sample_handlers) (event "order.paid") st
  = Ok tt (after "order.paid" [L2]).
Proof.
  intros L1 L2 st event after.
  destruct (scenario_prefix_and_suffix (HH := sample_handlers)
              0%nat L1 L2 None false eq_refl eq_refl) as (H1 & H2 & _).
  split.
  - apply (H1 (after "user.created" [L1])). vm_compute. reflexivity.
  - apply (H2 (after "order.paid" [L2])). vm_compute. reflexivity.
Defined.

(** C10 (as stated) fails: a handler run inline by the publish can register a
    listener on the emitter, and the table after [Emit] then differs from the
    table before it. *)
Lemma publish_changes_registry_counterexample :
  let l := NewListener 9 in
  let ev := NewEvent "test.event" None in
  let st : State nat string := final (Register "test.event" l (start 0%nat)) in
  listeners st !! "late.event" = None /\
  listeners (final (Emit (HH := sample_handlers) ev st)) !! "late.event"
  = Some [NewListener 1] /\
  listeners (final (Emit (HH := sample_handlers) ev st)) <> listeners st.
Proof.
  intros l ev st. split; [by vm_compute|]. split; [by vm_compute|].
  intros H. apply (f_equal (fun m => m !! "late.event")) in H.
  vm_compute in H. discriminate H.
Qed.

Lemma publish_preserves_registry_witness :
  let bad := NewListener 7 in
  let ev := mkEvent "error.event" None false true in
  let st : State nat string := final (Register "error.event" bad (start 0%nat)) in
  listeners (final (Emit (HH := counting_handlers) ev st)) = listeners st /\
  listeners (final (EmitBy (HH := counting_handlers) "error.event" (AnyString "x") st))
  = listeners st.
Proof.
  intros bad ev st.
  apply (publish_preserves_registry (HH := counting_handlers) st ev
           "error.event" (AnyString "x")).
  - intros l e tb w. reflexivity.
  - intros recv e err tb w. reflexivity.
Defined.

(** ** More on the matcher *)

Section MatcherRules.

Lemma string_snoc (s : string) :
  s <> "" -> exists a d, s = a +:+ String d "".
Proof.
  induction s as [|c s IH]; [done|]. intros _.
  destruct s as [|c' s'].
  - by exists "", c.
  - destruct IH as (a & d & Ha); [done|]. exists (String c a), d.
    by rewrite app_cons, <- Ha.
Qed.

Lemma snoc_inj (a b : string) (d e : ascii) :
  a +:+ String d "" = b +:+ String e "" -> a = b /\ d = e.
Proof.
  revert b; induction a as [|x a IH]; intros [|y b] H.
  - by injection H as ->.
  - rewrite app_cons in H. injection H as -> H. by destruct b.
  - rewrite app_cons in H. injection H as -> H. by destruct a.
  - rewrite !app_cons in H. injection H as -> H.
    destruct (IH b H) as [-> ->]. done.
Qed.

Lemma ends_with_star_last (a : string) (d : ascii) :
  ends_with (a +:+ String d "") "*" <-> d = star.
Proof.
  split.
  - intros [f Hf]. by apply snoc_inj in Hf as [_ ->].
  - intros ->. by exists a.
Qed.

Lemma starts_with_star_first (c : ascii) (s : string) :
  starts_with (String c s) "*" <-> c = star.
Proof.
  split.
  - intros [r Hr]. by injection Hr as -> _.
  - intros ->. by exists s.
Qed.

Lemma NewMatcher_suffix (suffix : string) :
  suffix <> "" -> ~ ends_with suffix "*" ->
  NewMatcher ("*" +:+ suffix) = Some (mkMatcher suffix matchSuffix).
Proof.
  intros Hne Hend. destruct (string_snoc suffix Hne) as (a & d & ->).
  rewrite ends_with_star_last in Hend. apply eqc_false in Hend.
  change ("*" +:+ a +:+ String d "") with (String star (a +:+ String d "")).
  unfold NewMatcher.
  assert (eqs (String star (a +:+ String d "")) "*" = false) as ->.
  { apply bool_decide_eq_false. intros [= H]. by destruct a. }
  rewrite at_first, eqc_refl_star.
  change (String star (a +:+ String d "")) with ((String star a) +:+ (String d "")) at 2 3.
  rewrite at_last, Hend.
  assert (and_then (1 <? len (String star (a +:+ String d "")))
            (and_then true (Some false)) = Some false) as ->.
  { by destruct (1 <? _). }
  cbv iota beta.
  change (String star (a +:+ String d "")) with ("*" +:+ (a +:+ String d "")).
  change 1 with (len "*") at 1.
  by rewrite slice_suffix.
Qed.

Lemma NewMatcher_exact (p : string) :
  p <> "" -> ~ starts_with p "*" -> ~ ends_with p "*" ->
  NewMatcher p = Some (mkMatcher p matchExact).
Proof.
  intros Hne Hs He. destruct (string_snoc p Hne) as (a & d & Hp).
  rewrite Hp in He. rewrite ends_with_star_last in He. apply eqc_false in He.
  destruct p as [|c p']; [done|].
  rewrite starts_with_star_first in Hs. apply eqc_false in Hs.
  unfold NewMatcher.
  assert (eqs (String c p') "*" = false) as ->.
  { apply bool_decide_eq_false. intros [= H _]. apply eqc_false in Hs. by apply Hs. }
  rewrite at_first, Hs.
  assert (and_then (1 <? len (String c p')) (and_then false
            (do b <- at_ (String c p') (len (String c p') - 1); Some (eqc b star)))
          = Some false) as ->.
  { by destruct (1 <? _). }
  cbv iota beta.
  assert ((0 <? len (String c p')) = true) as ->.
  { apply Z.ltb_lt. rewrite len_cons. pose proof (len_nonneg p'). lia. }
  rewrite Hp at 1 2. rewrite at_last, He. done.
Qed.

Lemma HasSuffix_spec (s p : string) : HasSuffix s p = true <-> ends_with s p.
Proof.
  unfold HasSuffix.
  destruct (Z.leb_spec (len p) (len s)) as [H|H]; simpl.
  - pose proof (len_nonneg p).
    destruct (slice_total s (len s - len p) (len s)) as [t Ht]; [lia..|].
    rewrite Ht. apply slice_Some in Ht as (a & c & Hs & Ha & Hl).
    assert (c = "") as ->.
    { apply len_zero. rewrite Hs, !len_app in Ha. lia. }
    rewrite app_empty_r in Hs. rewrite eqs_true. subst s. split.
    + intros ->. by exists a.
    + intros [f Hf].
      assert (a = f) as ->.
      { apply (app_inj_length _ _ _ _ Hf).
        apply (f_equal len) in Hf. rewrite !len_app in Hf. unfold len in *. lia. }
      by apply String.app_inj in Hf.
  - split; [done|]. intros [f ->]. rewrite len_app in H.
    pose proof (len_nonneg f). lia.
Qed.

Lemma Match_suffix (p target : string) :
  Match (mkMatcher p matchSuffix) target = Some (HasSuffix target p).
Proof.
  unfold Match, HasSuffix. simpl.
  destruct (Z.leb_spec (len p) (len target)) as [H|H]; simpl; [|done].
  pose proof (len_nonneg p).
  destruct (slice_total target (len target - len p) (len target)) as [t ->]; [lia..|].
  done.
Qed.

(** Every subscription string falls in one of the six classes. *)
Lemma classify (s : string) :
  s = "" \/ s = "*" \/
  (exists lit, s = "*" +:+ lit +:+ "*") \/
  (exists suffix, s = "*" +:+ suffix /\ suffix <> "" /\ ~ ends_with suffix "*") \/
  (exists prefix, s = prefix +:+ "*" /\ prefix <> "" /\ ~ starts_with prefix "*") \/
  (s <> "" /\ ~ starts_with s "*" /\ ~ ends_with s "*").
Proof.
  destruct s as [|c s']; [by left|]. right.
  destruct (decide (s' = "")) as [->|Hs'].
  - destruct (decide (c = star)) as [->|Hc]; [by left|].
    do 4 right. split; [done|]. rewrite starts_with_star_first.
    split; [done|]. change (String c "") with ("" +:+ String c "").
    by rewrite ends_with_star_last.
  - right. destruct (string_snoc s' Hs') as (a & d & ->).
    destruct (decide (c = star)) as [->|Hc], (decide (d = star)) as [->|Hd].
    + left. by exists a.
    + right. left. exists (a +:+ String d ""). split; [done|].
      split; [done|]. by rewrite ends_with_star_last.
    + right. right. left. exists (String c a). split; [done|]. split; [done|].
      by rewrite starts_with_star_first.
    + do 3 right. split; [done|]. rewrite starts_with_star_first. split; [done|].
      change (String c (a +:+ String d "")) with ((String c a) +:+ String d "").
      by rewrite ends_with_star_last.
Qed.

End MatcherRules.

Section MatcherExtras.

Lemma eqs_sym (a b : string) : eqs a b = eqs b a.
Proof. unfold eqs. apply bool_decide_ext. split; congruence. Qed.

Lemma bool_same (b1 b2 : bool) : (b1 = true <-> b2 = true) -> b1 = b2.
Proof. destruct b1, b2; intros [H1 H2]; auto; symmetry; auto. Qed.

(** X1: a non-empty pattern that neither begins nor ends with the wildcard
    marker compiles to an exact matcher: it accepts a name exactly when the
    name equals the pattern. *)
Theorem exact_pattern_matches (p name : string) :
  p <> "" -> ~ starts_with p "*" -> ~ ends_with p "*" ->
  exists b, matches p name = Some b /\ (b = true <-> name = p).
Proof.
  intros Hne Hs He. unfold matches. rewrite (NewMatcher_exact p Hne Hs He).
  exists (eqs name p). split; [done|]. apply eqs_true.
Qed.

Lemma exact_pattern_matches_witness :
  "test" <> "" /\ ~ starts_with "test" "*" /\ ~ ends_with "test" "*" /\
  exists b, matches "test" "test " = Some b /\ (b = true <-> "test " = "test").
Proof.
  assert ("test" <> "") as H1 by discriminate.
  assert (~ starts_with "test" "*") as H2.
  { intros [r Hr]. discriminate Hr. }
  assert (~ ends_with "test" "*") as H3.
  { change "test" with ("tes" +:+ String "t" ""). rewrite ends_with_star_last.
    discriminate. }
  split; [exact H1|]. split; [exact H2|]. split; [exact H3|].
  exact (exact_pattern_matches "test" "test " H1 H2 H3).
Defined.

(** X2: for every suffix that does not end with the wildcard marker, the
    pattern ["*" + suffix] compiles and accepts exactly the names that end
    with [suffix]. *)
Theorem suffix_pattern_matches (suffix name : string) :
  ~ ends_with suffix "*" ->
  exists b, matches ("*" +:+ suffix) name = Some b /\
            (b = true <-> ends_with name suffix).
Proof.
  intros He. destruct (decide (suffix = "")) as [->|Hne].
  - exists true. split; [done|]. split; [|done]. intros _. exists name.
    by rewrite app_empty_r.
  - unfold matches. rewrite (NewMatcher_suffix _ Hne He), Match_suffix.
    eexists. split; [done|]. apply HasSuffix_spec.
Qed.

Lemma suffix_pattern_matches_witness :
  ~ ends_with ".paid" "*" /\
  exists b, matches ("*" +:+ ".paid") "order.paid" = Some b /\
            (b = true <-> ends_with "order.paid" ".paid").
Proof.
  assert (~ ends_with ".paid" "*") as H.
  { change ".paid" with (".pai" +:+ String "d" ""). rewrite ends_with_star_last.
    discriminate. }
  split; [exact H | exact (suffix_pattern_matches ".paid" "order.paid" H)].
Defined.

(** X3: compiling a pattern panics exactly when the pattern is empty. *)
Theorem NewMatcher_panics_iff_empty (s : string) :
  NewMatcher s = None <-> s = "".
Proof.
  split; [|by intros ->].
  intros H. destruct (decide (s = "")) as [|Hne]; [done|].
  destruct (NewMatcher_total s Hne) as [m Hm]. congruence.
Qed.

(** X4: [Match] returns for every matcher value and every name, also for a
    matcher that [NewMatcher] did not build: the length test guards both
    slices. *)
Theorem Match_never_panics (m : Matcher) (target : string) :
  exists b, Match m target = Some b.
Proof. destruct (Match_total m target) as [b Hb]. by exists b. Qed.

(** X5: a compiled matcher determines the pattern it was compiled from: the
    class together with the stored literal reads back as the pattern. *)
Theorem render_NewMatcher (s : string) (m : Matcher) :
  NewMatcher s = Some m -> render m = s.
Proof.
  intros H.
  destruct (classify s) as
    [->|[->|[[lit ->]|[(suf & -> & Hne & He)|[(pre & -> & Hne & Hs)|(Hne & Hs & He)]]]]].
  - discriminate H.
  - by injection H as <-.
  - rewrite NewMatcher_contains in H. by injection H as <-.
  - rewrite (NewMatcher_suffix _ Hne He) in H. by injection H as <-.
  - rewrite (NewMatcher_prefix _ Hne Hs) in H. by injection H as <-.
  - rewrite (NewMatcher_exact _ Hne Hs He) in H. by injection H as <-.
Qed.

Lemma render_NewMatcher_witness :
  NewMatcher "*.paid" = Some (mkMatcher ".paid" matchSuffix) /\
  render (mkMatcher ".paid" matchSuffix) = "*.paid".
Proof.
  assert (NewMatcher "*.paid" = Some (mkMatcher ".paid" matchSuffix)) as H
    by reflexivity.
  split; [exact H | exact (render_NewMatcher _ _ H)].
Defined.

Lemma Legacy_star_first (suffix name : string) :
  suffix <> "" ->
  Legacy.matches ("*" +:+ suffix) name = Some (HasSuffix name suffix).
Proof.
  intros Hne. unfold Legacy.matches, Legacy.Match. simpl Legacy.s.
  change ("*" +:+ suffix) with (String star suffix).
  assert (eqs (String star suffix) "*" = false) as ->.
  { apply bool_decide_eq_false. by intros [= H]. }
  assert (HasPrefix (String star suffix) "*" = true) as ->.
  { apply HasPrefix_spec. by exists suffix. }
  change (String star suffix) with ("*" +:+ suffix).
  change 1 with (len "*"). by rewrite slice_suffix.
Qed.

Lemma Legacy_star_last (prefix name : string) :
  prefix <> "" -> ~ starts_with prefix "*" ->
  Legacy.matches (prefix +:+ "*") name = Some (HasPrefix name prefix).
Proof.
  intros Hne Hs. unfold Legacy.matches, Legacy.Match. simpl Legacy.s.
  destruct prefix as [|c p]; [done|]. rewrite starts_with_star_first in Hs.
  assert (eqs (String c p +:+ "*") "*" = false) as ->.
  { apply bool_decide_eq_false. by intros [= H]. }
  assert (HasPrefix (String c p +:+ "*") "*" = false) as ->.
  { apply not_true_is_false. rewrite HasPrefix_spec.
    rewrite app_cons, starts_with_star_first. done. }
  assert (HasSuffix (String c p +:+ "*") "*" = true) as ->.
  { apply HasSuffix_spec. by exists (String c p). }
  replace (len (String c p +:+ "*") - 1) with (len (String c p)).
  2:{ rewrite len_app. change (len "*") with 1. lia. }
  by rewrite slice_prefix.
Qed.

Lemma Legacy_exact (s name : string) :
  ~ starts_with s "*" -> ~ ends_with s "*" ->
  Legacy.matches s name = Some (eqs s name).
Proof.
  intros Hs He. unfold Legacy.matches, Legacy.Match. simpl Legacy.s.
  assert (eqs s "*" = false) as ->.
  { apply bool_decide_eq_false. intros ->. apply Hs. by exists "". }
  assert (HasPrefix s "*" = false) as ->.
  { apply not_true_is_false. by rewrite HasPrefix_spec. }
  assert (HasSuffix s "*" = false) as ->.
  { apply not_true_is_false. by rewrite HasSuffix_spec. }
  done.
Qed.

(** X6: the earlier matcher returns for every pattern and every name; for the
    empty pattern it accepts exactly the empty name. *)
Theorem Legacy_never_panics (s name : string) :
  exists b, Legacy.matches s name = Some b /\
            (s = "" -> (b = true <-> name = "")).
Proof.
  destruct (classify s) as
    [->|[->|[[lit ->]|[(suf & -> & Hne & He)|[(pre & -> & Hne & Hs)|(Hne & Hs & He)]]]]].
  - exists (eqs "" name). split; [done|]. intros _. rewrite eqs_true.
    split; congruence.
  - exists true. split; [done|]. discriminate.
  - rewrite Legacy_star_first by (by destruct lit). eexists. split; [done|].
    discriminate.
  - rewrite (Legacy_star_first _ _ Hne). eexists. split; [done|]. discriminate.
  - rewrite (Legacy_star_last _ _ Hne Hs). eexists. split; [done|].
    intros H. by destruct pre.
  - rewrite (Legacy_exact _ _ Hs He). eexists. split; [done|]. done.
Qed.

(** X7: on every non-empty pattern that is not a literal between two wildcard
    markers, the earlier matcher and the present one give the same answer. *)
Theorem Legacy_agrees (s name : string) :
  s <> "" -> ~ (exists lit, s = "*" +:+ lit +:+ "*") ->
  Legacy.matches s name = matches s name.
Proof.
  intros Hs Hc.
  destruct (classify s) as
    [->|[->|[[lit ->]|[(suf & -> & Hne & He)|[(pre & -> & Hne & Hp)|(Hne & Hp & He)]]]]].
  - done.
  - done.
  - exfalso. apply Hc. by exists lit.
  - rewrite (Legacy_star_first _ _ Hne). unfold matches.
    by rewrite (NewMatcher_suffix _ Hne He), Match_suffix.
  - rewrite (Legacy_star_last _ _ Hne Hp). unfold matches.
    rewrite (NewMatcher_prefix _ Hne Hp).
    destruct (Match_prefix pre name) as (b & -> & Hb). f_equal.
    apply bool_same. by rewrite HasPrefix_spec, Hb.
  - rewrite (Legacy_exact _ _ Hp He). unfold matches.
    rewrite (NewMatcher_exact _ Hne Hp He). unfold Match. simpl.
    by rewrite eqs_sym.
Qed.

Lemma Legacy_agrees_witness :
  "user.*" <> "" /\ ~ (exists lit, "user.*" = "*" +:+ lit +:+ "*") /\
  Legacy.matches "user.*" "user.created" = matches "user.*" "user.created".
Proof.
  assert ("user.*" <> "") as H1 by discriminate.
  assert (~ (exists lit, "user.*" = "*" +:+ lit +:+ "*")) as H2.
  { intros [lit H]. discriminate H. }
  split; [exact H1|]. split; [exact H2|].
  exact (Legacy_agrees "user.*" "user.created" H1 H2).
Defined.

(** X8: the earlier matcher reads a literal between two wildcard markers as a
    suffix pattern: it accepts the names that end with the literal followed
    by the marker. *)
Theorem Legacy_contains_is_suffix (lit name : string) :
  exists b, Legacy.matches ("*" +:+ lit +:+ "*") name = Some b /\
            (b = true <-> ends_with name (lit +:+ "*")).
Proof.
  rewrite Legacy_star_first by (by destruct lit).
  eexists. split; [done|]. apply HasSuffix_spec.
Qed.

End MatcherExtras.

(** ** More on the registry *)

Section RegistryExtras.

Context {W Err : Type}.
Implicit Types (st : State W Err) (ls given : list Listener).

Lemma asNamable_nil_iff given :
  omap asNamable given = [] <-> Forall (fun g => Name g = None) given.
Proof.
  induction given as [|g given IH]; simpl; [done|].
  unfold asNamable at 1. rewrite Forall_cons. destruct (Name g).
  - split; [done | by intros [? _]].
  - split; [intros H; split; [done | by apply IH] | intros [_ H]; by apply IH].
Qed.

Lemma Unregister_given_unnamed st (p : string) given :
  given <> [] -> omap asNamable given = [] ->
  Unregister p given st =
  Ok tt (mkState (listeners st) (world st)
                 (trace st ++ [Debug "eventify unregister"])).
Proof.
  intros Hg Hn. unfold Unregister. rewrite (length_zero_cons _ Hg).
  unfold bind, log_Debug. by rewrite namedOf_omap, Hn.
Qed.

Lemma Unregister_absent st (p : string) given :
  omap asNamable given <> [] -> listeners st !! p = None ->
  Unregister p given st =
  Ok tt (mkState (listeners st) (world st)
                 (trace st ++ [Debug "eventify unregister"])).
Proof.
  intros Hg Hp. unfold Unregister.
  rewrite length_zero_cons by (intros ->; by apply Hg).
  unfold bind, log_Debug. rewrite namedOf_omap, (length_zero_cons _ Hg).
  unfold Load. simpl. by rewrite Hp.
Qed.

(** The three outcomes of [Unregister]: the entry is deleted, the table is
    left as it is, or a rebuilt list is stored under the pattern. *)
Lemma Unregister_outcomes st (p : string) given :
  exists st',
    Unregister p given st = Ok tt st' /\ world st' = world st /\
    ((given = [] /\ listeners st' = delete p (listeners st)) \/
     (given <> [] /\ listeners st' = listeners st) \/
     (exists ls, listeners st !! p = Some ls /\
                 given <> [] /\
                 listeners st' =
                 <[p := omap asUnnamed ls ++
                         flat_map (copiesOf (omap asNamable given)) (omap asNamable ls)]>
                   (listeners st))).
Proof.
  destruct given as [|g given'] eqn:Eg.
  { eexists. rewrite Unregister_all. split; [done|]. split; [done|]. by left. }
  rewrite <- Eg. assert (given <> []) as Hne by (by rewrite Eg).
  destruct (decide (omap asNamable given = [])) as [Hn|Hn].
  { eexists. rewrite (Unregister_given_unnamed _ _ _ Hne Hn).
    split; [done|]. split; [done|]. right. by left. }
  destruct (listeners st !! p) as [ls|] eqn:Hp.
  - destruct (decide (omap asNamable ls = [])) as [Hl|Hl].
    + eexists. rewrite (Unregister_no_named _ _ ls _ Hn Hp Hl).
      split; [done|]. split; [done|]. right. by left.
    + eexists. rewrite (Unregister_named _ _ ls _ Hn Hp Hl).
      split; [done|]. split; [done|]. right. right. by exists ls.
  - eexists. rewrite (Unregister_absent _ _ _ Hn Hp).
    split; [done|]. split; [done|]. right. by left.
Qed.

(** X9: the list held for the pattern after [Register] is the former list
    (the empty list when the pattern was new) followed by the listener; the
    list of every other pattern and the program state are as before. *)
Theorem Register_appends st (p : string) (l : Listener) :
  listeners (final (Register p l st)) !! p
  = Some (default [] (listeners st !! p) ++ [l]) /\
  (forall q, q <> p ->
             listeners (final (Register p l st)) !! q = listeners st !! q) /\
  world (final (Register p l st)) = world st.
Proof.
  rewrite Register_state. simpl.
  split; [by rewrite lookup_insert_eq|]. split; [|done].
  intros q Hq. by rewrite lookup_insert_ne.
Qed.

(** X10: registering a listener under a pattern and then removing all
    listeners of that pattern gives the table without the pattern; when the
    pattern was not registered before, this is the table before the
    registration. *)
Theorem Register_then_remove_all st (p : string) (l : Listener) :
  listeners (final (Unregister p [] (final (Register p l st))))
  = delete p (listeners st) /\
  (listeners st !! p = None ->
   listeners (final (Unregister p [] (final (Register p l st)))) = listeners st).
Proof.
  rewrite Register_state, Unregister_all. simpl. rewrite delete_insert_eq.
  split; [done|]. intros H. by apply delete_id.
Qed.

(** X11: whatever listeners are given, [Unregister] leaves the program state
    and the list of every pattern other than the one it is given as they
    were. *)
Theorem Unregister_frame st (p : string) given :
  world (final (Unregister p given st)) = world st /\
  (forall q, q <> p ->
             listeners (final (Unregister p given st)) !! q = listeners st !! q).
Proof.
  destruct (Unregister_outcomes st p given)
    as (st' & -> & Hw & [[_ L] | [[_ L] | (ls & _ & _ & L)]]);
    simpl; (split; [exact Hw|]); intros q Hq; rewrite L.
  - by rewrite lookup_delete_ne.
  - done.
  - by rewrite lookup_insert_ne.
Qed.

(** X12: when listeners are given but none of them carries a name, the table
    is left exactly as it was: a listener without a name cannot be removed
    individually. *)
Theorem Unregister_unnamed_given st (p : string) given :
  given <> [] -> Forall (fun g => Name g = None) given ->
  listeners (final (Unregister p given st)) = listeners st.
Proof.
  intros Hne Hg. apply asNamable_nil_iff in Hg.
  by rewrite (Unregister_given_unnamed _ _ _ Hne Hg).
Qed.

(** X13: [Unregister] on a pattern that is not registered leaves the table
    exactly as it was, whatever listeners are given. *)
Theorem Unregister_absent_pattern st (p : string) given :
  listeners st !! p = None ->
  listeners (final (Unregister p given st)) = listeners st.
Proof.
  intros Hp.
  destruct (Unregister_outcomes st p given)
    as (st' & -> & _ & [[_ L] | [[_ L] | (ls & Hls & _)]]); simpl.
  - rewrite L. by apply delete_id.
  - done.
  - congruence.
Qed.

(** X14: with exactly one listener given, carrying the name [n], [Unregister]
    keeps, up to order, the registered listeners whose name is not [n], each
    as often as before, and removes every listener named [n]. *)
Theorem Unregister_one_named st (p n : string) (g : Listener) ls :
  Name g = Some n ->
  listeners st !! p = Some ls ->
  exists st' ls',
    Unregister p [g] st = Ok tt st' /\
    listeners st' !! p = Some ls' /\
    ls' ≡ₚ filter (fun l => Name l <> Some n) ls.
Proof.
  intros Hg Hp. apply (Unregister_single_identity st p n g ls [g]); [|done].
  simpl. unfold asNamable. by rewrite Hg.
Qed.

Lemma asUnnamed_filter ls :
  omap asUnnamed ls = filter (fun l => Name l = None) ls.
Proof.
  induction ls as [|l ls IH]; [done|]. rewrite filter_cons. simpl.
  unfold asUnnamed at 1. destruct (Name l) eqn:E.
  - by rewrite decide_False.
  - rewrite decide_True by done. by f_equal.
Qed.

Lemma filter_unnamed_idem ls :
  filter (fun l => Name l = None) (filter (fun l => Name l = None) ls)
  = filter (fun l => Name l = None) ls.
Proof.
  induction ls as [|l ls IH]; [done|].
  rewrite !filter_cons. destruct (decide (Name l = None)) as [E|E]; [|done].
  rewrite filter_cons, decide_True by done. by f_equal.
Qed.

Lemma copies_named given ls :
  Forall (fun l => Name l <> None /\ l ∈ ls)
         (flat_map (copiesOf (omap asNamable given)) (omap asNamable ls)).
Proof.
  apply Forall_forall. intros x Hx.
  apply list_elem_of_In, in_flat_map in Hx as ([n l] & Hy & Hx).
  apply list_elem_of_In, list_elem_of_omap in Hy as (l0 & Hl0 & Hn).
  unfold asNamable in Hn. destruct (Name l0) as [m|] eqn:Hm; [|done].
  injection Hn as -> ->.
  unfold copiesOf in Hx. apply in_flat_map in Hx as (z & _ & Hx). simpl in Hx.
  destruct (negb _); simpl in Hx; [|done]. destruct Hx as [<-|[]].
  split; [by rewrite Hm | done].
Qed.

(** X15: whatever listeners are given (at least one), every listener that
    [Unregister] leaves under the pattern was registered under it before, and
    the listeners without a name are kept, in order, exactly as before. *)
Theorem Unregister_keeps_unnamed st (p : string) ls given :
  given <> [] ->
  listeners st !! p = Some ls ->
  exists ls',
    listeners (final (Unregister p given st)) !! p = Some ls' /\
    ls' ⊆ ls /\
    filter (fun l => Name l = None) ls' = filter (fun l => Name l = None) ls.
Proof.
  intros Hne Hp.
  destruct (Unregister_outcomes st p given)
    as (st' & -> & _ & [[? _] | [[_ L] | (ls0 & Hls0 & _ & L)]]); simpl.
  - done.
  - exists ls. rewrite L. done.
  - rewrite Hp in Hls0. injection Hls0 as <-.
    eexists. rewrite L, lookup_insert_eq. split; [done|].
    pose proof (copies_named given ls) as Hc. split.
    + intros x [Hx|Hx]%elem_of_app.
      * apply list_elem_of_omap in Hx as (y & Hy & Hx). unfold asUnnamed in Hx.
        destruct (Name y); [done|]. by injection Hx as <-.
      * rewrite Forall_forall in Hc. by apply Hc.
    + rewrite filter_app, asUnnamed_filter.
      clear L. set (F := flat_map _ _) in *.
      assert (filter (fun l => Name l = None) F = []) as ->.
      { clearbody F. induction Hc as [|x F [Hx _] _ IH]; [done|].
        rewrite filter_cons, decide_False by done. exact IH. }
      rewrite app_nil_r. apply filter_unnamed_idem.
Qed.

End RegistryExtras.

(** ** More on dispatch *)

Section DispatchExtras.

Context {W Err : Type} `{HH : Handlers W Err}.
Implicit Types (st : State W Err) (ls : list Listener) (ev : Event)
  (tr : list (Call Err)).

Lemma keys_nonempty st :
  listeners st !! "" = None ->
  Forall (fun kv : string * list Listener => kv.1 <> "") (map_to_list (listeners st)).
Proof.
  intros H. apply Forall_forall. intros [k v] Hkv%elem_of_map_to_list. simpl.
  intros ->. congruence.
Qed.

(** X16: once the empty pattern is registered, every [Emit] and every
    [EmitBy] panics in the collection phase, before any handler is called:
    table, program state and record of calls at the panic are those before
    the call. *)
Theorem publish_with_empty_pattern_panics ev (t : string) (payload : any) st :
  is_Some (listeners st !! "") ->
  Emit ev st = Panic st /\ EmitBy t payload st = Panic st.
Proof.
  intros H. split; [by apply _Emit_empty_pattern_panics|].
  unfold EmitBy. destruct (asEvent payload); by apply _Emit_empty_pattern_panics.
Qed.

Lemma handlers_only_sync ev ls (t t' : gmap string (list Listener)) (w w' : W) :
  hasErrorHandler ev = false ->
  handlers_only ev ls t w = Some (t', w') ->
  exists tr, sync_deliveries ev ls t w = Some (t', w', tr).
Proof.
  intros Hh. revert t w; induction ls as [|l ls IH]; intros t w; simpl.
  - intros [= <- <-]. eauto.
  - unfold sync_delivery. rewrite Hh.
    destruct (Handle l ev t w) as [[e|] t1 w1|]; [| |done];
      intros H; destruct (IH _ _ H) as [tr ->]; eauto.
Qed.

(** X18: when the event carries no failure callback, the errors that handlers
    return are dropped.  A publish of such an event that is not asynchronous,
    to collected listeners that are not asynchronous, returns in the state
    obtained by calling each handler once, in order, whatever the handlers
    before it returned, and calls no callback (when no handler call
    panics). *)
Theorem Emit_without_callback ev ls st
    (t' : gmap string (list Listener)) (w' : W) :
  hasErrorHandler ev = false ->
  isAsyncEvent ev = false ->
  Forall (fun l => isAsyncListener l = false) ls ->
  _MatchedListeners (Type_ ev) st = Ok ls st ->
  handlers_only ev ls (listeners st) (world st) = Some (t', w') ->
  exists tr,
    _Emit ev st
    = Ok tt (mkState t' w' (trace st ++ tr ++ [Debug "eventify emited"])) /\
    invoked tr = ls /\
    callbacks tr = [].
Proof.
  intros Hh Ha Hls Hm Hr.
  destruct (handlers_only_sync ev ls _ _ _ _ Hh Hr) as [tr Hd].
  destruct (sync_deliveries_record ev ls _ _ _ _ _ Hd) as [_ I C _ _].
  rewrite Hh in C. exists tr. split; [|done].
  apply (_Emit_sync ev ls st _ Ha Hls Hm). unfold sync_publish. by rewrite Hd.
Qed.

Lemma flat_map_nil {A B} (f : A -> list B) (xs : list A) :
  Forall (fun x => f x = []) xs -> flat_map f xs = [].
Proof. induction 1 as [|x xs Hx _ IH]; simpl; [done|]. by rewrite Hx, IH. Qed.

(** X20: when every registered pattern compiles and rejects the event's name,
    the publish only writes its log line: no handler runs, no task is
    launched, table and program state are as before. *)
Theorem Emit_no_match ev st :
  (forall k v, listeners st !! k = Some v -> matches k (Type_ ev) = Some false) ->
  _Emit ev st =
  Ok tt (mkState (listeners st) (world st) (trace st ++ [Debug "eventify emited"])).
Proof.
  intros H.
  assert (listeners st !! "" = None) as Hk.
  { destruct (listeners st !! "") as [v|] eqn:E; [|done].
    by specialize (H _ _ E). }
  unfold _Emit, bind.
  rewrite (_MatchedListeners_ok _ _ (keys_nonempty st Hk)).
  rewrite flat_map_nil; [done|].
  apply Forall_forall. intros [k v] Hkv%elem_of_map_to_list.
  unfold selected. simpl. by rewrite (H _ _ Hkv).
Qed.

(** X21: when the empty pattern is not registered, the collection phase of a
    publish returns, leaves the state as it is, and returns a listener if and
    only if the listener is registered under some pattern that accepts the
    name. *)
Theorem collection_iff_registered (name : string) st :
  listeners st !! "" = None ->
  exists ls,
    _MatchedListeners name st = Ok ls st /\
    forall l, l ∈ ls <->
              exists p ls', listeners st !! p = Some ls' /\ l ∈ ls' /\
                            matches p name = Some true.
Proof.
  intros Hk. eexists.
  split; [exact (_MatchedListeners_ok name st (keys_nonempty st Hk))|].
  intros l. rewrite list_elem_of_In, in_flat_map. split.
  - intros ([p ls] & Hkv & Hl). apply list_elem_of_In, elem_of_map_to_list in Hkv.
    unfold selected in Hl. simpl in Hl.
    destruct (matches p name) as [[|]|] eqn:Hmt; try done.
    exists p, ls. by rewrite list_elem_of_In.
  - intros (p & ls & Hp & Hl & Hmt). exists (p, ls).
    split; [by apply list_elem_of_In, elem_of_map_to_list|].
    unfold selected. simpl. rewrite Hmt. by apply list_elem_of_In.
Qed.

End DispatchExtras.

(** ** Options *)

Section OptionFacts.

Import Options.

Lemma apply_all_None (opts : list OptionFunc) (o : Option) :
  apply_all opts o = None <-> None ∈ opts.
Proof.
  revert o; induction opts as [|[f|] opts IH]; intros o; simpl.
  - split; [done|]. by intros ?%elem_of_nil.
  - rewrite IH, elem_of_cons. split; [by right|]. by intros [?|?].
  - split; [intros _; by left | done].
Qed.

Lemma apply_all_loggers (logs : list Log) (o : Option) :
  apply_all (map WithLogger logs) o = Some (mkOption (default (log o) (last logs))).
Proof.
  revert o; induction logs as [|l logs IH]; intros o; simpl.
  - by destruct o.
  - rewrite IH, last_cons. simpl. by destruct (last logs).
Qed.

(** X23: [NewOption] panics exactly when one of the given option functions
    is nil. *)
Theorem NewOption_panics_iff_nil (opts : list OptionFunc) :
  NewOption opts = None <-> None ∈ opts.
Proof. apply apply_all_None. Qed.

(** X24: when every option given is a [WithLogger], [NewOption] returns the
    option whose logger is the one of the last [WithLogger], and the default
    [NoLog] logger when no option is given. *)
Theorem NewOption_last_logger (logs : list Log) :
  NewOption (map WithLogger logs) = Some (mkOption (default NoLog (last logs))).
Proof. apply (apply_all_loggers logs (mkOption NoLog)). Qed.

End OptionFacts.

(** ** Runs of the sample program *)

Lemma Unregister_unnamed_given_witness :
  let l := NewListener 1 in
  let st : State nat string := final (Register "test.event" l (start 0%nat)) in
  [l] <> [] /\ Forall (fun g => Name g = None) [l] /\
  listeners (final (Unregister "test.event" [l] st)) = listeners st.
Proof.
  intros l st.
  assert ([l] <> []) as H1 by discriminate.
  assert (Forall (fun g => Name g = None) [l]) as H2 by (by repeat constructor).
  split; [exact H1|]. split; [exact H2|].
  exact (Unregister_unnamed_given st "test.event" [l] H1 H2).
Defined.

Lemma Unregister_absent_pattern_witness :
  let l := NewNamedListener "l1" 1 in
  let st : State nat string := final (Register "test.event" l (start 0%nat)) in
  listeners st !! "other.event" = None /\
  listeners (final (Unregister "other.event" [l] st)) = listeners st.
Proof.
  intros l st.
  assert (listeners st !! "other.event" = None) as H by reflexivity.
  split; [exact H | exact (Unregister_absent_pattern st "other.event" [l] H)].
Defined.

Lemma Unregister_one_named_witness :
  let l1 := NewNamedListener "l1" 1 in
  let l2 := NewNamedListener "l2" 2 in
  let st : State nat string :=
    final (Register "test.event" l2 (final (Register "test.event" l1 (start 0%nat)))) in
  exists (st' : State nat string) ls',
    Unregister "test.event" [l1] st = Ok tt st' /\
    listeners st' !! "test.event" = Some ls' /\
    ls' ≡ₚ filter (fun l => Name l <> Some "l1") [l1; l2].
Proof.
  intros l1 l2 st.
  apply (Unregister_one_named st "test.event" "l1" l1 [l1; l2]); reflexivity.
Defined.

Lemma Unregister_keeps_unnamed_witness :
  let l0 := NewListener 0 in
  let l1 := NewNamedListener "l1" 1 in
  let l2 := NewNamedListener "l2" 2 in
  let st : State nat string :=
    final (Register "test.event" l1 (final (Register "test.event" l0 (start 0%nat)))) in
  exists ls',
    listeners (final (Unregister "test.event" [l1; l2] st)) !! "test.event" = Some ls' /\
    ls' ⊆ [l0; l1] /\
    filter (fun l => Name l = None) ls' = filter (fun l => Name l = None) [l0; l1].
Proof.
  intros l0 l1 l2 st.
  apply (Unregister_keeps_unnamed st "test.event" [l0; l1] [l1; l2]).
  - discriminate.
  - reflexivity.
Defined.

Lemma publish_with_empty_pattern_panics_witness :
  let l := NewListener 1 in
  let ev := NewEvent "user.paid" None in
  let st : State nat string := final (Register "" l (start 0%nat)) in
  is_Some (listeners st !! "") /\
  Emit (HH := sample_handlers) ev st = Panic st /\
  EmitBy (HH := sample_handlers) "user.paid" (AnyString "x") st = Panic st.
Proof.
  intros l ev st.
  assert (is_Some (listeners st !! "")) as H by (by exists [l]).
  split; [exact H|].
  exact (publish_with_empty_pattern_panics (HH := sample_handlers)
           ev "user.paid" (AnyString "x") st H).
Defined.

Lemma Emit_without_callback_witness :
  let bad := NewListener 7 in
  let good := NewListener 8 in
  let ev := NewEvent "error.event" None in
  let st : State nat string :=
    final (Register "error.event" good
             (final (Register "error.event" bad (start 0%nat)))) in
  exists tr,
    _Emit (HH := sample_handlers) ev st
    = Ok tt (mkState (listeners st) 2%nat
               (trace st ++ tr ++ [Debug "eventify emited"])) /\
    invoked tr = [bad; good] /\
    callbacks tr = [].
Proof.
  intros bad good ev st.
  apply (Emit_without_callback (HH := sample_handlers) ev [bad; good] st
           (listeners st) 2%nat).
  - reflexivity.
  - reflexivity.
  - by repeat constructor.
  - vm_compute. reflexivity.
  - vm_compute. reflexivity.
Defined.

Lemma Emit_no_match_witness :
  let l := NewListener 1 in
  let ev := NewEvent "order.paid" None in
  let st : State nat string := final (Register "user.*" l (start 0%nat)) in
  _Emit (HH := sample_handlers) ev st =
  Ok tt (mkState (listeners st) (world st) (trace st ++ [Debug "eventify emited"])).
Proof.
  intros l ev st.
  apply (Emit_no_match (HH := sample_handlers) ev st).
  intros k v H. unfold st in H. rewrite Register_state in H. simpl in H.
  destruct (decide (k = "user.*")) as [->|Hne].
  - reflexivity.
  - rewrite lookup_insert_ne, lookup_empty in H by done. discriminate H.
Defined.

Lemma collection_iff_registered_witness :
  let l := NewListener 1 in
  let st : State nat string := final (Register "user.*" l (start 0%nat)) in
  exists ls,
    _MatchedListeners "user.paid" st = Ok ls st /\
    forall l', l' ∈ ls <->
               exists p ls', listeners st !! p = Some ls' /\ l' ∈ ls' /\
                             matches p "user.paid" = Some true.
Proof.
  intros l st.
  apply (collection_iff_registered "user.paid" st).
  reflexivity.
Defined.
